(** * Halving add of the NEON scalar reference layer

    A shallow embedding of [src/neon_ref/arithmetic/vhadd.cpp]: the twelve
    entries [vhadd_<type>] and [vhaddq_<type>], each a loop

      for (int i = 0; i < n; i++) D[i] = (N[i] + M[i]) >> 1;

    over a fixed-size lane vector.  Lane values are integers of [Z]; the C++
    arithmetic on them (integral promotion, wrap-around of the 32-bit
    operand types, shift, conversion on assignment) is written out, for
    [int] of 32 bits in two's complement, [>>] of a negative [int] the
    arithmetic shift, and a sum of two [int] outside the range of [int]
    reduced to 32 bits as the machine addition does (the language leaves
    that sum undefined; it arises in the [int32_t] entries only).

    The second part embeds the integer helpers of [opencv_helper.hpp]
    (namespace [och], module [och] here): [mat_type_to_string],
    [assertAlmostEqual], [compute_phash], [compute_hamming_dist],
    [is_hash_similar], [auto_compare], [clip], [in_range], the two colour
    functions and [get_regular_polygon_vertices].  What OpenCV computes
    (resizing, colour conversion, the elements of a matrix) and what is
    computed in floating point (the rotation of a point) enter as
    arguments. *)

From stdpp Require Import base numbers option list strings pretty.
From Stdlib Require Import ZArith Lia QArith.

Local Open Scope Z_scope.

(** ** Lane element types *)

(** The element types of the lane vectors the entries are declared with:
    [int8_t], [int16_t], [int32_t], [uint8_t], [uint16_t], [uint32_t]. *)
Inductive ctype : Set :=
  | Int8 | Int16 | Int32 | UInt8 | UInt16 | UInt32.

#[global] Instance ctype_eq_dec : EqDecision ctype.
Proof. solve_decision. Defined.

Definition bits (t : ctype) : Z :=
  match t with
  | Int8 | UInt8 => 8
  | Int16 | UInt16 => 16
  | Int32 | UInt32 => 32
  end.

Definition is_signed (t : ctype) : bool :=
  match t with
  | Int8 | Int16 | Int32 => true
  | UInt8 | UInt16 | UInt32 => false
  end.

(** Reduction of an integer into [w] bits: modulo [2^w] for an unsigned
    type, two's complement for a signed one. *)
Definition wrap (w : Z) (sg : bool) (x : Z) : Z :=
  if sg then (x + 2 ^ (w - 1)) mod 2 ^ w - 2 ^ (w - 1)
  else x mod 2 ^ w.

Definition min_val (t : ctype) : Z :=
  if is_signed t then - 2 ^ (bits t - 1) else 0.

Definition max_val (t : ctype) : Z :=
  if is_signed t then 2 ^ (bits t - 1) - 1 else 2 ^ bits t - 1.

(** A lane value is in the domain of its type. *)
Definition in_range (t : ctype) (x : Z) : Prop :=
  min_val t <= x <= max_val t.

#[global] Instance in_range_dec t x : Decision (in_range t x).
Proof. unfold in_range. apply _. Defined.

(** ** The expression [(N[i] + M[i]) >> 1] and its assignment to [D[i]] *)

(** Integral promotion with [int] of 32 bits: every type narrower than
    [int] promotes to [int]; [int32_t] and [uint32_t] keep their type. *)
Definition promote (t : ctype) : ctype :=
  match t with
  | Int8 | Int16 | UInt8 | UInt16 | Int32 => Int32
  | UInt32 => UInt32
  end.

(** A type narrower than [int], which integral promotion widens. *)
Definition narrow (t : ctype) : Prop := bits t < 32.

#[global] Instance narrow_dec t : Decision (narrow t).
Proof. unfold narrow. apply _. Defined.

(** [x + y] in the operand type [t] ([int] or [unsigned int]).  The sum of
    two [unsigned int] is taken modulo [2^32].  The sum of two [int] that
    leaves the range of [int] is reduced in two's complement, which is what
    the machine addition does; no sum of promoted 8 or 16 bit lanes leaves
    that range (lemma [add_promoted_exact]). *)
Definition c_add (t : ctype) (x y : Z) : Z :=
  wrap (bits t) (is_signed t) (x + y).

(** [x >> k]: on [Z] the shift is the floor of the division by [2^k], the
    arithmetic shift of a negative [int] and the logical shift of an
    [unsigned int]. *)
Definition c_shr (x k : Z) : Z := Z.shiftr x k.

(** Conversion of the value of the expression to the lane type on
    assignment. *)
Definition c_convert (t : ctype) (x : Z) : Z :=
  wrap (bits t) (is_signed t) x.

(** The value stored in [D[i]] for lanes [a = N[i]] and [b = M[i]] of
    type [t]. *)
Definition hadd_lane (t : ctype) (a b : Z) : Z :=
  c_convert t (c_shr (c_add (promote t) a b) 1).

(** Follows the specification's words, not the source: the sum is taken in
    an intermediate domain of [elementWidth + 1] bits of the same
    signedness, shifted right by one, and truncated to the lane width. *)
Definition spec_halving_add (t : ctype) (a b : Z) : Z :=
  wrap (bits t) (is_signed t)
       (Z.shiftr (wrap (bits t + 1) (is_signed t) (a + b)) 1).

(** ** Lane vectors *)

(** Modelled from the spec: the lane vector types [int8x8_t], ...,
    [uint32x4_t] are declared in a header that is not among the sources.
    After the data model of the specification a lane vector is a fixed
    number of lanes, index 0 first, every lane an integer of the element
    type, held by value; a lane is read and written by its index, and an
    index outside [0, laneCount) is a contract violation, which stops the
    computation ([None]). *)
Definition well_shaped (t : ctype) (n : nat) (v : list Z) : Prop :=
  length v = n ∧ Forall (in_range t) v.

#[global] Instance well_shaped_dec t n v : Decision (well_shaped t n v).
Proof. unfold well_shaped. apply _. Defined.

Definition lane_read (v : list Z) (i : nat) : option Z := v !! i.

Definition lane_write (v : list Z) (i : nat) (x : Z) : option (list Z) :=
  if decide (i < length v)%nat then Some (<[i:=x]> v) else None.

(** A vector declared without an initialiser, as [D] is.  Its lanes are
    indeterminate in the source; they are zero here, and every entry
    overwrites each of them before it returns ([for_loop_any_dest]). *)
Definition declare_vec (n : nat) : list Z := replicate n 0.

(** ** The body of an entry *)

(** The variables of a call: the two parameters, which hold copies of the
    caller's operands, and the local [D]. *)
Record frame : Set := Frame {
  frame_N : list Z;
  frame_M : list Z;
  frame_D : list Z
}.

(** [D[i] = (N[i] + M[i]) >> 1;] for lanes of type [t]. *)
Definition loop_body (t : ctype) (i : nat) (f : frame) : option frame :=
  a ← lane_read (frame_N f) i;
  b ← lane_read (frame_M f) i;
  d ← lane_write (frame_D f) i (hadd_lane t a b);
  Some {| frame_N := frame_N f; frame_M := frame_M f; frame_D := d |}.

(** [for (; i < n; i++) body], with [k = n - i] iterations left. *)
Fixpoint for_loop (body : nat → frame → option frame)
    (i k : nat) (f : frame) : option frame :=
  match k with
  | O => Some f
  | S k' => f' ← body i f; for_loop body (S i) k' f'
  end.

(** The frame at the [return] of an entry over [n] lanes of type [t]. *)
Definition hadd_frame (t : ctype) (n : nat) (N M : list Z) : option frame :=
  for_loop (loop_body t) 0 n
    {| frame_N := N; frame_M := M; frame_D := declare_vec n |}.

(** The common shape of the twelve entries: declare [D], run the loop,
    return [D]. *)
Definition hadd_entry (t : ctype) (n : nat) (N M : list Z) : option (list Z) :=
  f ← hadd_frame t n N M; Some (frame_D f).

(** ** The twelve entries *)

Definition vhadd_s8 : list Z → list Z → option (list Z) := hadd_entry Int8 8.
Definition vhadd_s16 : list Z → list Z → option (list Z) := hadd_entry Int16 4.
Definition vhadd_s32 : list Z → list Z → option (list Z) := hadd_entry Int32 2.
Definition vhadd_u8 : list Z → list Z → option (list Z) := hadd_entry UInt8 8.
Definition vhadd_u16 : list Z → list Z → option (list Z) := hadd_entry UInt16 4.
Definition vhadd_u32 : list Z → list Z → option (list Z) := hadd_entry UInt32 2.

Definition vhaddq_s8 : list Z → list Z → option (list Z) := hadd_entry Int8 16.
Definition vhaddq_s16 : list Z → list Z → option (list Z) := hadd_entry Int16 8.
Definition vhaddq_s32 : list Z → list Z → option (list Z) := hadd_entry Int32 4.
Definition vhaddq_u8 : list Z → list Z → option (list Z) := hadd_entry UInt8 16.
Definition vhaddq_u16 : list Z → list Z → option (list Z) := hadd_entry UInt16 8.
Definition vhaddq_u32 : list Z → list Z → option (list Z) := hadd_entry UInt32 4.

(** The dispatch surface: one name per entry, with the element type and the
    lane count of its vector type. *)
Inductive entry : Set :=
  | Vhadd_s8 | Vhadd_s16 | Vhadd_s32 | Vhadd_u8 | Vhadd_u16 | Vhadd_u32
  | Vhaddq_s8 | Vhaddq_s16 | Vhaddq_s32 | Vhaddq_u8 | Vhaddq_u16 | Vhaddq_u32.

#[global] Instance entry_eq_dec : EqDecision entry.
Proof. solve_decision. Defined.

Definition all_entries : list entry :=
  [Vhadd_s8; Vhadd_s16; Vhadd_s32; Vhadd_u8; Vhadd_u16; Vhadd_u32;
   Vhaddq_s8; Vhaddq_s16; Vhaddq_s32; Vhaddq_u8; Vhaddq_u16; Vhaddq_u32].

Definition entry_type (e : entry) : ctype :=
  match e with
  | Vhadd_s8 | Vhaddq_s8 => Int8
  | Vhadd_s16 | Vhaddq_s16 => Int16
  | Vhadd_s32 | Vhaddq_s32 => Int32
  | Vhadd_u8 | Vhaddq_u8 => UInt8
  | Vhadd_u16 | Vhaddq_u16 => UInt16
  | Vhadd_u32 | Vhaddq_u32 => UInt32
  end.

(** Width in bits of the vector type of an entry: 64 for [vhadd_*], 128
    for [vhaddq_*]. *)
Definition entry_vector_bits (e : entry) : Z :=
  match e with
  | Vhadd_s8 | Vhadd_s16 | Vhadd_s32 | Vhadd_u8 | Vhadd_u16 | Vhadd_u32 => 64
  | _ => 128
  end.

(** The bound of the loop of each entry. *)
Definition entry_lanes (e : entry) : nat :=
  match e with
  | Vhadd_s8 | Vhadd_u8 => 8
  | Vhadd_s16 | Vhadd_u16 => 4
  | Vhadd_s32 | Vhadd_u32 => 2
  | Vhaddq_s8 | Vhaddq_u8 => 16
  | Vhaddq_s16 | Vhaddq_u16 => 8
  | Vhaddq_s32 | Vhaddq_u32 => 4
  end.

Definition run (e : entry) : list Z → list Z → option (list Z) :=
  match e with
  | Vhadd_s8 => vhadd_s8
  | Vhadd_s16 => vhadd_s16
  | Vhadd_s32 => vhadd_s32
  | Vhadd_u8 => vhadd_u8
  | Vhadd_u16 => vhadd_u16
  | Vhadd_u32 => vhadd_u32
  | Vhaddq_s8 => vhaddq_s8
  | Vhaddq_s16 => vhaddq_s16
  | Vhaddq_s32 => vhaddq_s32
  | Vhaddq_u8 => vhaddq_u8
  | Vhaddq_u16 => vhaddq_u16
  | Vhaddq_u32 => vhaddq_u32
  end.

(** The frame at the [return] of entry [e]. *)
Definition run_frame (e : entry) (N M : list Z) : option frame :=
  hadd_frame (entry_type e) (entry_lanes e) N M.

(** An operand of entry [e]: a vector of its lane count with every lane in
    the domain of its element type. *)
Definition operand (e : entry) (v : list Z) : Prop :=
  well_shaped (entry_type e) (entry_lanes e) v.

#[global] Instance operand_dec e v : Decision (operand e v).
Proof. unfold operand. apply _. Defined.

(** The same width and signedness in both vector widths. *)
Definition same_element (d q : entry) : Prop :=
  entry_type d = entry_type q ∧
  entry_vector_bits d = 64 ∧ entry_vector_bits q = 128.

#[global] Instance same_element_dec d q : Decision (same_element d q).
Proof. unfold same_element. apply _. Defined.

(** ** The OpenCV helpers *)

(** A counting loop [for (; i < n; i++) body] over a state, with
    [k = n - i] iterations left; a body that reads outside an array stops
    the computation ([None]). *)
Fixpoint for_range {St : Type} (body : nat → St → option St)
    (i k : nat) (s : St) : option St :=
  match k with
  | O => Some s
  | S k' => s' ← body i s; for_range body (S i) k' s'
  end.

Module och.

(** *** [mat_type_to_string] *)

(** The type codes of OpenCV, whose header is not part of the sources:
    a type is [depth + 8 * (channels - 1)], as the table above
    [mat_type_to_string] shows; [CV_MAT_DEPTH] keeps the low three bits and
    [CV_MAT_CN] is one more than the nine bits above them. *)
Definition CV_8U : Z := 0.
Definition CV_8S : Z := 1.
Definition CV_16U : Z := 2.
Definition CV_16S : Z := 3.
Definition CV_32S : Z := 4.
Definition CV_32F : Z := 5.
Definition CV_64F : Z := 6.
Definition CV_16F : Z := 7.

Definition CV_MAT_DEPTH (type : Z) : Z := Z.land type 7.

Definition CV_MAT_CN (type : Z) : Z :=
  Z.shiftr (Z.land type 4088) 3 + 1.

Definition CV_MAKETYPE (depth cn : Z) : Z := depth + Z.shiftl (cn - 1) 3.

(** The [char] an [int] converts to when it is appended to a string: its
    low eight bits. *)
Definition char_of_int (x : Z) : Ascii.ascii := Ascii.ascii_of_N (Z.to_N (x mod 256)).

Definition depth_name (depth : Z) : string :=
  if decide (depth = CV_8U) then "8U"
  else if decide (depth = CV_8S) then "8S"
  else if decide (depth = CV_16U) then "16U"
  else if decide (depth = CV_16S) then "16S"
  else if decide (depth = CV_32S) then "32S"
  else if decide (depth = CV_32F) then "32F"
  else if decide (depth = CV_64F) then "64F"
  else if decide (depth = CV_16F) then "16F"
  else "User".

(** [r = <name of depth>; r += "C"; r += (cn + '0');] *)
Definition mat_type_to_string (type : Z) : string :=
  let depth := CV_MAT_DEPTH type in
  let cn := CV_MAT_CN type in
  (depth_name depth ++ "C") ++ String (char_of_int (cn + 48)) "".

(** *** [compute_hamming_dist] *)

(** [if (feat1[i] != feat2[i]) dis++;] *)
Definition hamming_body (feat1 feat2 : list Z) (i : nat) (dis : Z)
    : option Z :=
  a ← feat1 !! i;
  b ← feat2 !! i;
  Some (if decide (a ≠ b) then dis + 1 else dis).

Definition compute_hamming_dist (feat1 feat2 : list Z) (len : Z) : option Z :=
  for_range (hamming_body feat1 feat2) 0 (Z.to_nat len) 0.

(** *** [compute_phash] *)

(** [sum += gray.data[i];] *)
Definition phash_sum_body (data : list Z) (i : nat) (sum : Z) : option Z :=
  x ← data !! i; Some (sum + x).

(** [if (gray.data[i] > mean) feature[i] = 1;] *)
Definition phash_feature_body (data : list Z) (mean : Z) (i : nat)
    (feature : list Z) : option (list Z) :=
  x ← data !! i;
  if decide (x > mean) then
    (if decide (i < length feature)%nat then Some (<[i:=1]> feature) else None)
  else Some feature.

(** [compute_phash] from the bytes [gray.data] of the 8 by 8 image that
    OpenCV's [resize] and [cvtColor] produce from [src].  The sum of 64
    bytes and its quotient by 64 are exact in [double], and the conversion
    to [uint8_t] drops the fraction. *)
Definition compute_phash (data : list Z) : option (list Z) :=
  sum ← for_range (phash_sum_body data) 0 64 0;
  let mean := sum / 64 in
  for_range (phash_feature_body data mean) 0 64 (replicate 64 0).

(** What a call returns: a value, or the exception [CV_Error] throws. *)
Inductive outcome (A : Type) : Type :=
  | Returns (x : A)
  | Throws.
Arguments Returns {A} x.
Arguments Throws {A}.

(** [is_hash_similar]; [depth1], [data1] are the depth of [mat1] and the
    bytes of its 8 by 8 grey image, and likewise for [mat2]. *)
Definition is_hash_similar (depth1 : Z) (data1 : list Z)
    (depth2 : Z) (data2 : list Z) (hash_dist_thresh : Z)
    : option (outcome bool) :=
  if decide (depth1 ≠ CV_8U ∨ depth2 ≠ CV_8U) then Some Throws
  else
    feature1 ← compute_phash data1;
    feature2 ← compute_phash data2;
    dist ← compute_hamming_dist feature1 feature2 64;
    Some (Returns (bool_decide (dist ≤ hash_dist_thresh))).

(** *** [clip] and [in_range], at an integer type [T] *)

Definition clip (val minval maxval : Z) : Z :=
  let '(minval, maxval) :=
    if decide (minval > maxval) then (maxval, minval) else (minval, maxval) in
  let result := val in
  let result := if decide (val < minval) then minval else result in
  let result := if decide (val > maxval) then maxval else result in
  result.

Definition in_range (val minval maxval : Z) : bool :=
  let '(minval, maxval) :=
    if decide (minval > maxval) then (maxval, minval) else (minval, maxval) in
  if decide (val < minval ∨ val > maxval) then false else true.

(** *** Colours *)

(** [cv::Scalar(v0, v1, v2)]: four components, the last one zero. *)
Definition Scalar3 (v0 v1 v2 : Z) : list Z := [v0; v1; v2; 0].

(** [/] and [%] of [int] truncate towards zero. *)
Definition get_bgr_color_from_hex (hex : Z) : list Z :=
  let b := hex ÷ 65536 in
  let g := (hex `rem` 65536) ÷ 256 in
  let r := hex `rem` 256 in
  Scalar3 b g r.

Definition get_rgb_color_from_hex (hex : Z) : list Z :=
  let b := hex ÷ 65536 in
  let g := (hex `rem` 65536) ÷ 256 in
  let r := hex `rem` 256 in
  Scalar3 r g b.

(** *** [assertAlmostEqual], at an integer type [T] *)

(** The product [cols * cn] in [int]. *)
Definition int_mul (x y : Z) : Z := wrap 32 true (x * y).

(** The loop of [assertAlmostEqual] from index [i], with [k = len - i]
    iterations left.  The difference of two integers is exact in [double];
    [eps] is the rational a finite [double] stands for.  The message written
    to [std::cerr] before [return false] is left out. *)
Fixpoint assert_row_loop (expected actual : list Z) (eps : Q)
    (i k : nat) : option bool :=
  match k with
  | O => Some true
  | S k' =>
      e ← expected !! i;
      a ← actual !! i;
      let diff := Z.abs (e - a) in
      if negb (Qle_bool (inject_Z diff) eps) then Some false
      else assert_row_loop expected actual eps (S i) k'
  end.

Definition assertAlmostEqual (expected actual : list Z)
    (y cols cn : Z) (eps : Q) : option bool :=
  let len := int_mul cols cn in
  assert_row_loop expected actual eps 0 (Z.to_nat len).

(** *** [auto_compare], at an integer type [T] *)

(** What [auto_compare] uses of a [cv::Mat]: its [rows], [cols] and
    [channels()], and the element [ptr<T>(i, j)[k]]. *)
Record Mat : Type := {
  rows : Z;
  cols : Z;
  channels : Z;
  elems : list (list (list Z))
}.

Definition mat_ptr (m : Mat) (i j k : nat) : option Z :=
  row ← elems m !! i; px ← row !! j; px !! k.

(** The body of the innermost loop, on [max_diff]; the position kept in
    [max_diff_pos] is only printed. *)
Definition auto_compare_body (expected actual : Mat) (i j k : nat)
    (max_diff : list Z) : option (list Z) :=
  e ← mat_ptr expected i j k;
  a ← mat_ptr actual i j k;
  let diff := Z.abs (if decide (e ≠ a) then 1 else 0) in
  m ← max_diff !! k;
  let max_diff := if decide (m < diff) then <[k:=diff]> max_diff else max_diff in
  m' ← max_diff !! k;
  Some (<[k:=Z.max diff m']> max_diff).

(** The loop that prints [max_diff[k]] for every channel. *)
Definition auto_compare_print (k : nat) (max_diff : list Z)
    : option (list Z) :=
  _ ← max_diff !! k; Some max_diff.

Definition auto_compare (expected actual : Mat) : option (list Z) :=
  if decide (rows expected ≠ rows actual ∨ cols expected ≠ cols actual)
  then Some [-1; -1; -1; -1]
  else
    let height := Z.to_nat (rows expected) in
    let width := Z.to_nat (cols expected) in
    let channels := Z.to_nat (channels expected) in
    max_diff ←
      for_range (λ i,
        for_range (λ j,
          for_range (auto_compare_body expected actual i j) 0 channels)
          0 width)
        0 height [0; 0; 0; 0];
    for_range auto_compare_print 0 channels max_diff.

(** The two matrices differ in channel [k] of the pixel at row [i] and
    column [j]. *)
Definition mat_differ (expected actual : Mat) (i j k : nat) : Prop :=
  ∃ x y, mat_ptr expected i j k = Some x ∧ mat_ptr actual i j k = Some y ∧
         x ≠ y.

(** The elements of a matrix are as many as its [rows], [cols] and
    [channels()] say. *)
Definition mat_wf (m : Mat) : Prop :=
  length (elems m) = Z.to_nat (rows m) ∧
  Forall (λ row,
    length row = Z.to_nat (cols m) ∧
    Forall (λ px : list Z, length px = Z.to_nat (channels m)) row) (elems m).

#[global] Instance mat_wf_dec m : Decision (mat_wf m).
Proof. unfold mat_wf. apply _. Defined.

(** The state of [max_diff] once the positions of [P] have been compared:
    four components, each 0 or 1, and 1 exactly for the channels in which
    a compared position differs. *)
Definition flags_seen (expected actual : Mat)
    (P : nat → nat → nat → Prop) (max_diff : list Z) : Prop :=
  length max_diff = 4%nat ∧
  ∀ c, (c < 4)%nat → ∃ v, max_diff !! c = Some v ∧ (v = 0 ∨ v = 1) ∧
    (v = 1 ↔ ∃ i j, P i j c ∧ mat_differ expected actual i j c).

(** *** [get_regular_polygon_vertices] *)


End och.

(** * Arithmetic of one lane *)

Section lane_arithmetic.

Local Ltac unfold_lane :=
  unfold hadd_lane, spec_halving_add, c_convert, c_shr, c_add, promote,
    in_range, min_val, max_val, wrap, bits, is_signed in *;
  rewrite ?Z.shiftr_div_pow2 by lia;
  simpl Z.sub in *; simpl Z.add in *;
  change (2 ^ 33) with 8589934592 in *;
  change (2 ^ 32) with 4294967296 in *;
  change (2 ^ 31) with 2147483648 in *;
  change (2 ^ 17) with 131072 in *;
  change (2 ^ 16) with 65536 in *;
  change (2 ^ 15) with 32768 in *;
  change (2 ^ 9) with 512 in *;
  change (2 ^ 8) with 256 in *;
  change (2 ^ 7) with 128 in *;
  change (2 ^ 1) with 2 in *.

Local Ltac solve_lane :=
  unfold_lane; Z.div_mod_to_equations; lia.

Lemma wrap_in_range t x :
  in_range t x → wrap (bits t) (is_signed t) x = x.
Proof. destruct t; intros H; solve_lane. Qed.

Lemma wrap_range t x : in_range t (wrap (bits t) (is_signed t) x).
Proof. destruct t; solve_lane. Qed.

(** The sum of two promoted lanes of 8 or 16 bits is exact in [int]. *)
Lemma add_promoted_exact t a b :
  narrow t → in_range t a → in_range t b →
  c_add (promote t) a b = a + b.
Proof. unfold narrow. destruct t; intros Hn Ha Hb; solve_lane. Qed.

(** On lanes of 8 or 16 bits the stored value is the floor of the half
    of the exact sum. *)
Lemma hadd_lane_narrow t a b :
  narrow t → in_range t a → in_range t b →
  hadd_lane t a b = (a + b) / 2.
Proof. unfold narrow. destruct t; intros Hn Ha Hb; solve_lane. Qed.

(** The value the specification describes is, on every type, the floor
    of the half of the exact sum. *)
Lemma spec_halving_add_exact t a b :
  in_range t a → in_range t b →
  spec_halving_add t a b = (a + b) / 2.
Proof. destruct t; intros Ha Hb; solve_lane. Qed.

Lemma hadd_lane_in_range t a b : in_range t (hadd_lane t a b).
Proof. apply wrap_range. Qed.

(** On [uint32_t] lanes the sum is reduced modulo [2^32] before the
    shift. *)
Lemma hadd_lane_u32 a b :
  in_range UInt32 a → in_range UInt32 b →
  hadd_lane UInt32 a b = Z.shiftr ((a + b) mod 2 ^ 32) 1.
Proof.
  intros Ha Hb. unfold hadd_lane, c_shr, c_add, c_convert, promote.
  apply wrap_in_range.
  unfold_lane. Z.div_mod_to_equations; lia.
Qed.

(** On [int32_t] lanes the sum is reduced to 32 bits in two's complement
    before the shift. *)
Lemma hadd_lane_s32 a b :
  hadd_lane Int32 a b = Z.shiftr (wrap 32 true (a + b)) 1.
Proof.
  unfold hadd_lane, c_shr, c_add, c_convert, promote.
  apply wrap_in_range.
  unfold_lane. Z.div_mod_to_equations; lia.
Qed.

Lemma hadd_lane_comm t a b : hadd_lane t a b = hadd_lane t b a.
Proof. unfold hadd_lane, c_add. by rewrite (Z.add_comm a b). Qed.

End lane_arithmetic.

(** * The loop *)

Section loop.

Context (t : ctype).

Lemma lane_write_Some (v : list Z) i x :
  (i < length v)%nat → lane_write v i x = Some (<[i:=x]> v).
Proof. intros H. unfold lane_write. by rewrite decide_True. Qed.

Lemma loop_body_Some N M D i a b :
  N !! i = Some a → M !! i = Some b → (i < length D)%nat →
  loop_body t i (Frame N M D)
  = Some (Frame N M (<[i:=hadd_lane t a b]> D)).
Proof.
  intros HN HM HD. unfold loop_body, lane_read. simpl.
  rewrite HN, HM. simpl. rewrite lane_write_Some by done. done.
Qed.

(** Whatever the body returns, it has written neither parameter and has
    kept the length of [D]. *)
Lemma loop_body_frame i f f' :
  loop_body t i f = Some f' →
  frame_N f' = frame_N f ∧ frame_M f' = frame_M f ∧
  length (frame_D f') = length (frame_D f).
Proof.
  unfold loop_body, lane_read, lane_write. intros H.
  destruct (frame_N f !! i) as [a|]; simpl in H; [|done].
  destruct (frame_M f !! i) as [b|]; simpl in H; [|done].
  case_decide; simpl in H; [|done].
  injection H as <-. simpl. by rewrite length_insert.
Qed.

Lemma for_loop_frame k : ∀ i f f',
  for_loop (loop_body t) i k f = Some f' →
  frame_N f' = frame_N f ∧ frame_M f' = frame_M f ∧
  length (frame_D f') = length (frame_D f).
Proof.
  induction k as [|k IH]; intros i f f' H; simpl in H.
  - by injection H as <-.
  - destruct (loop_body t i f) as [f1|] eqn:Hb; simpl in H; [|done].
    apply loop_body_frame in Hb as (HN & HM & HD).
    apply IH in H as (HN' & HM' & HD'). split_and!; congruence.
  Qed.

(** The loop from [i] over [k] lanes, all within the three vectors:
    it returns, and it has written the lanes [i, i + k) of [D] and no
    other. *)
Lemma for_loop_lanes k : ∀ i N M D,
  (i + k ≤ length N)%nat → (i + k ≤ length M)%nat →
  (i + k ≤ length D)%nat →
  ∃ D', for_loop (loop_body t) i k (Frame N M D) = Some (Frame N M D') ∧
    length D' = length D ∧
    (∀ j, (i ≤ j < i + k)%nat →
          D' !! j = zip_with (hadd_lane t) N M !! j) ∧
    (∀ j, ¬ (i ≤ j < i + k)%nat → D' !! j = D !! j).
Proof.
  induction k as [|k IH]; intros i N M D HN HM HD; simpl.
  - exists D. split_and!; [done|done|lia|done].
  - destruct (lookup_lt_is_Some_2 N i) as [a Ha]; [lia|].
    destruct (lookup_lt_is_Some_2 M i) as [b Hb]; [lia|].
    rewrite (loop_body_Some N M D i a b) by (done || lia). simpl.
    destruct (IH (S i) N M (<[i:=hadd_lane t a b]> D))
      as (D' & Hrun & Hlen & Hin & Hout);
      [lia|lia|rewrite length_insert; lia|].
    exists D'. rewrite length_insert in Hlen. split_and!; [done|done| |].
    + intros j Hj. destruct (decide (j = i)) as [->|Hne].
      * rewrite Hout by lia.
        rewrite list_lookup_insert_eq by lia.
        rewrite lookup_zip_with, Ha, Hb. done.
      * apply Hin. lia.
    + intros j Hj. rewrite Hout by lia.
      apply list_lookup_insert_ne. lia.
Qed.

(** A loop that returns has found every lane it indexes. *)
Lemma for_loop_Some_bounds k : ∀ i f f',
  for_loop (loop_body t) i (S k) f = Some f' →
  (i + S k ≤ length (frame_N f))%nat ∧
  (i + S k ≤ length (frame_M f))%nat ∧
  (i + S k ≤ length (frame_D f))%nat.
Proof.
  induction k as [|k IH]; intros i f f' H; simpl in H;
    destruct (loop_body t i f) as [f1|] eqn:Hb; simpl in H; try done;
    pose proof (loop_body_frame _ _ _ Hb) as (HN & HM & HD);
    unfold loop_body, lane_read, lane_write in Hb;
    destruct (frame_N f !! i) eqn:Ha; simpl in Hb; try done;
    destruct (frame_M f !! i) eqn:Hc; simpl in Hb; try done;
    case_decide; simpl in Hb; try done;
    apply lookup_lt_Some in Ha, Hc.
  - lia.
  - apply IH in H. rewrite HN, HM, HD in H. lia.
Qed.

(** The lanes [D] is declared with do not reach the result. *)
Lemma for_loop_any_dest n N M D1 D2 f1 f2 :
  length D1 = n → length D2 = n →
  for_loop (loop_body t) 0 n (Frame N M D1) = Some f1 →
  for_loop (loop_body t) 0 n (Frame N M D2) = Some f2 →
  frame_D f1 = frame_D f2.
Proof.
  intros H1 H2 R1 R2. destruct n as [|n].
  { apply nil_length_inv in H1, H2. simpl in R1, R2. congruence. }
  pose proof (for_loop_Some_bounds _ _ _ _ R1) as (HN & HM & _).
  simpl in HN, HM.
  destruct (for_loop_lanes (S n) 0 N M D1) as (E1 & Q1 & L1 & I1 & _);
    [lia..|].
  destruct (for_loop_lanes (S n) 0 N M D2) as (E2 & Q2 & L2 & I2 & _);
    [lia..|].
  rewrite Q1 in R1. rewrite Q2 in R2.
  injection R1 as <-. injection R2 as <-. simpl.
  apply list_eq. intros j.
  destruct (decide (j < S n)%nat).
  - rewrite I1, I2 by lia. done.
  - rewrite !lookup_ge_None_2 by lia. done.
Qed.

(** An entry over [n] lanes, on two vectors of [n] lanes: it returns the
    vector of the lane values, in index order. *)
Lemma hadd_frame_zip n N M :
  length N = n → length M = n →
  hadd_frame t n N M = Some (Frame N M (zip_with (hadd_lane t) N M)).
Proof.
  intros HN HM. unfold hadd_frame, declare_vec.
  destruct (for_loop_lanes n 0 N M (replicate n 0))
    as (D' & Hrun & Hlen & Hin & _);
    [lia|lia|rewrite length_replicate; lia|].
  rewrite Hrun. do 2 f_equal.
  rewrite length_replicate in Hlen.
  apply list_eq. intros j.
  destruct (decide (j < n)%nat).
  - apply Hin. lia.
  - rewrite !lookup_ge_None_2; [done| |lia].
    rewrite length_zip_with. lia.
Qed.

Lemma hadd_entry_zip n N M :
  length N = n → length M = n →
  hadd_entry t n N M = Some (zip_with (hadd_lane t) N M).
Proof.
  intros HN HM. unfold hadd_entry. by rewrite hadd_frame_zip.
Qed.

End loop.

(** The dispatch surface has twelve entries, and the loop bound of each is
    the lane count of its vector type: vector width over element width. *)
Lemma all_entries_complete :
  length all_entries = 12%nat ∧ NoDup all_entries ∧ ∀ e, e ∈ all_entries.
Proof.
  split; [done|]. split; [compute_done|].
  intros e. destruct e; compute_done.
Qed.

Lemma entry_lanes_shape e :
  Z.of_nat (entry_lanes e) = entry_vector_bits e / bits (entry_type e).
Proof. by destruct e. Qed.

Lemma run_hadd_entry e :
  run e = hadd_entry (entry_type e) (entry_lanes e).
Proof. by destruct e. Qed.

(** * The entries on operands of their shape *)

Lemma run_operands e N M :
  operand e N → operand e M →
  run e N M = Some (zip_with (hadd_lane (entry_type e)) N M).
Proof.
  intros [HN _] [HM _]. rewrite run_hadd_entry. by apply hadd_entry_zip.
Qed.

Lemma run_frame_operands e N M :
  operand e N → operand e M →
  run_frame e N M
  = Some (Frame N M (zip_with (hadd_lane (entry_type e)) N M)).
Proof. intros [HN _] [HM _]. by apply hadd_frame_zip. Qed.

Lemma operand_zip e N M :
  operand e N → operand e M →
  operand e (zip_with (hadd_lane (entry_type e)) N M).
Proof.
  intros [HN _] [HM _]. split.
  - rewrite length_zip_with. lia.
  - apply Forall_lookup. intros i x Hx.
    apply lookup_zip_with_Some in Hx as (a & b & -> & _ & _).
    apply hadd_lane_in_range.
Qed.

Lemma operand_lookup e v i :
  operand e v → (i < entry_lanes e)%nat →
  ∃ x, v !! i = Some x ∧ in_range (entry_type e) x.
Proof.
  intros [Hlen Hall] Hi.
  destruct (lookup_lt_is_Some_2 v i) as [x Hx]; [lia|].
  exists x. split; [done|]. by eapply Forall_lookup_1.
Qed.

Lemma operand_in_range e v i x :
  operand e v → v !! i = Some x → in_range (entry_type e) x.
Proof. intros [_ Hall] Hx. by eapply Forall_lookup_1. Qed.

Lemma operand_insert e v i x :
  operand e v → in_range (entry_type e) x → operand e (<[i:=x]> v).
Proof.
  intros [Hlen Hall] Hx. split.
  - by rewrite length_insert.
  - by apply Forall_insert.
Qed.

(** The lane of the result at an index where the operands hold [a] and
    [b]. *)
Lemma run_lane e N M i a b :
  operand e N → operand e M → N !! i = Some a → M !! i = Some b →
  ∃ r, run e N M = Some r ∧ r !! i = Some (hadd_lane (entry_type e) a b).
Proof.
  intros HN HM Ha Hb. eexists. split; [by apply run_operands|].
  by rewrite lookup_zip_with, Ha, Hb.
Qed.

(** On the eight entries over lanes of 8 or 16 bits the lane of the result
    is the value the specification describes: the sum loses nothing. *)
Lemma run_lane_narrow_exact e N M i a b :
  narrow (entry_type e) →
  operand e N → operand e M → N !! i = Some a → M !! i = Some b →
  ∃ r, run e N M = Some r ∧
       r !! i = Some (spec_halving_add (entry_type e) a b) ∧
       r !! i = Some (Z.shiftr (a + b) 1).
Proof.
  intros Hn HN HM Ha Hb.
  destruct (run_lane e N M i a b) as (r & Hr & Hi); [done..|].
  pose proof (operand_in_range _ _ _ _ HN Ha).
  pose proof (operand_in_range _ _ _ _ HM Hb).
  exists r. split; [done|].
  rewrite Hi, spec_halving_add_exact, hadd_lane_narrow by done.
  rewrite Z.shiftr_div_pow2 by lia. done.
Qed.

(** * The claims *)

(** The [int32_t] entries add in [int]: on the in-domain lanes
    [a = b = 2^31 - 1] the sum leaves the range of [int], and reduced to
    32 bits it gives the lane [-1]. *)
Lemma vhadd_s32_sum_is_reduced :
  operand Vhadd_s32 [2147483647; 0] ∧
  vhadd_s32 [2147483647; 0] [2147483647; 0] = Some [-1; 0] ∧
  spec_halving_add Int32 2147483647 2147483647 = 2147483647.
Proof. split_and!; compute_done. Qed.

(** C1.  The claim asks of all twelve entries that a lane of the result is
    [(a + b) >> 1] with the sum taken in at least one bit more than the
    lane has, and names the 32-bit entries.  [vhadd_u32] adds in
    [unsigned int]: on lanes [a = b = 2^32 - 1], which are in the domain,
    the sum [2^33 - 2] is reduced to [2^32 - 2] and the lane of the result
    is [2^31 - 1], where the claim gives [2^32 - 1]; [vhaddq_u32] does the
    same. *)
Theorem vhadd_u32_sum_is_reduced :
  operand Vhadd_u32 [4294967295; 0] ∧
  operand Vhaddq_u32 [4294967295; 0; 0; 0] ∧
  vhadd_u32 [4294967295; 0] [4294967295; 0] = Some [2147483647; 0] ∧
  vhaddq_u32 [4294967295; 0; 0; 0] [4294967295; 0; 0; 0]
  = Some [2147483647; 0; 0; 0] ∧
  spec_halving_add UInt32 4294967295 4294967295 = 4294967295 ∧
  Z.shiftr (4294967295 + 4294967295) 1 = 4294967295.
Proof. split_and!; compute_done. Qed.

(** C2.  On two operands of its shape every entry returns, the vector it
    returns is the only result, and that vector is again an operand of the
    shape: it has the lane count of the entry and every lane of it is in
    the domain of the element type. *)
Theorem run_total_in_domain e N M :
  operand e N → operand e M →
  ∃ r, run e N M = Some r ∧ operand e r ∧
       ∀ r', run e N M = Some r' → r' = r.
Proof.
  intros HN HM. exists (zip_with (hadd_lane (entry_type e)) N M).
  rewrite (run_operands e N M HN HM). split_and!.
  - done.
  - by apply operand_zip.
  - intros r' H. by injection H.
Qed.

Lemma run_total_in_domain_witness :
  ∃ r, run Vhaddq_s32 [2147483647; -2147483648; 7; -1]
                      [2147483647; -2147483648; -8; 1] = Some r ∧
       operand Vhaddq_s32 r ∧
       ∀ r', run Vhaddq_s32 [2147483647; -2147483648; 7; -1]
                            [2147483647; -2147483648; -8; 1] = Some r' →
             r' = r.
Proof.
  apply (run_total_in_domain Vhaddq_s32
           [2147483647; -2147483648; 7; -1]
           [2147483647; -2147483648; -8; 1]); compute_done.
Defined.

(** C3.  [vhadd_s8] on operands whose lanes at an index hold [a] and [b]:
    the lane of the result is the floor of [(a + b) / 2].  For [a = 1],
    [b = 0] it is [0], for [a = -1], [b = 0] it is [-1], and for an odd sum
    it is never the half rounded to nearest, [(a + b + 1) / 2]. *)
Theorem vhadd_s8_truncates N M i a b :
  operand Vhadd_s8 N → operand Vhadd_s8 M →
  N !! i = Some a → M !! i = Some b →
  ∃ r x, vhadd_s8 N M = Some r ∧ r !! i = Some x ∧
         x = (a + b) / 2 ∧
         2 * x ≤ a + b < 2 * x + 2 ∧
         (a = 1 ∧ b = 0 → x = 0) ∧
         (a = -1 ∧ b = 0 → x = -1) ∧
         (Z.odd (a + b) = true → x ≠ (a + b + 1) / 2).
Proof.
  intros HN HM Ha Hb.
  destruct (run_lane Vhadd_s8 N M i a b) as (r & Hr & Hi); [done..|].
  pose proof (operand_in_range _ _ _ _ HN Ha) as Ra.
  pose proof (operand_in_range _ _ _ _ HM Hb) as Rb.
  exists r, ((a + b) / 2). split; [done|]. split.
  { rewrite Hi. f_equal. by apply hadd_lane_narrow. }
  split; [done|]. split; [Z.div_mod_to_equations; lia|].
  split_and!.
  - by intros [-> ->].
  - by intros [-> ->].
  - intros Hodd. rewrite Z.odd_spec in Hodd. destruct Hodd as [k Hk].
    rewrite Hk. Z.div_mod_to_equations. lia.
Qed.

Lemma vhadd_s8_truncates_witness :
  (∃ r, vhadd_s8 [1; -1; 0; 0; 0; 0; 0; 0] [0; 0; 0; 0; 0; 0; 0; 0] = Some r ∧
        r !! 0%nat = Some 0) ∧
  (∃ r, vhadd_s8 [1; -1; 0; 0; 0; 0; 0; 0] [0; 0; 0; 0; 0; 0; 0; 0] = Some r ∧
        r !! 1%nat = Some (-1)).
Proof.
  split.
  - destruct (vhadd_s8_truncates
                [1; -1; 0; 0; 0; 0; 0; 0] [0; 0; 0; 0; 0; 0; 0; 0] 0 1 0)
      as (r & x & Hr & Hi & _ & _ & H1 & _); [compute_done..|].
    exists r. split; [exact Hr|]. rewrite Hi, H1; [reflexivity|]. split; reflexivity.
  - destruct (vhadd_s8_truncates
                [1; -1; 0; 0; 0; 0; 0; 0] [0; 0; 0; 0; 0; 0; 0; 0] 1 (-1) 0)
      as (r & x & Hr & Hi & _ & _ & _ & H1 & _); [compute_done..|].
    exists r. split; [exact Hr|]. rewrite Hi, H1; [reflexivity|]. split; reflexivity.
Defined.

(** C4.  [vhadd_u8] on operands whose lanes at an index both hold [255]:
    the lane of the result is [255], the half of the sum [510], and not
    the [127] that a sum reduced to 8 bits would give. *)
Theorem vhadd_u8_max_lanes N M i :
  operand Vhadd_u8 N → operand Vhadd_u8 M →
  N !! i = Some 255 → M !! i = Some 255 →
  ∃ r, vhadd_u8 N M = Some r ∧ r !! i = Some 255 ∧ r !! i ≠ Some 127 ∧
       Z.shiftr (255 + 255) 1 = 255 ∧
       Z.shiftr (wrap 8 false (255 + 255)) 1 = 127.
Proof.
  intros HN HM Ha Hb.
  destruct (run_lane Vhadd_u8 N M i 255 255) as (r & Hr & Hi); [done..|].
  exists r. split; [done|]. rewrite Hi. split_and!; compute_done.
Qed.

Lemma vhadd_u8_max_lanes_witness :
  ∃ r, vhadd_u8 [0; 0; 255; 0; 0; 0; 0; 0] [9; 0; 255; 0; 0; 0; 0; 1] = Some r ∧
       r !! 2%nat = Some 255 ∧ r !! 2%nat ≠ Some 127 ∧
       Z.shiftr (255 + 255) 1 = 255 ∧
       Z.shiftr (wrap 8 false (255 + 255)) 1 = 127.
Proof.
  apply (vhadd_u8_max_lanes
           [0; 0; 255; 0; 0; 0; 0; 0] [9; 0; 255; 0; 0; 0; 0; 1] 2);
    compute_done.
Defined.

(** C5.  [vhaddq_s16] on [a = [2,2,2,2,2,2,2,2]] and
    [b = [4,4,4,4,4,4,4,4]] returns the vector of eight lanes that holds
    [3] in every lane. *)
Theorem vhaddq_s16_two_four :
  vhaddq_s16 [2; 2; 2; 2; 2; 2; 2; 2] [4; 4; 4; 4; 4; 4; 4; 4]
  = Some [3; 3; 3; 3; 3; 3; 3; 3].
Proof. reflexivity. Qed.

(** C6.  Lane independence.  For every entry and every index [i]: two runs
    whose operands agree at lane [i], whatever their other lanes hold,
    return vectors that agree at lane [i]; and writing an in-domain value
    [x] into lane [j] of one operand changes the result at lane [j] only:
    every other lane of the result is as it was. *)
Theorem lane_independence e i j x N1 M1 N2 M2 :
  operand e N1 → operand e M1 → operand e N2 → operand e M2 →
  N1 !! i = N2 !! i → M1 !! i = M2 !! i →
  in_range (entry_type e) x →
  ∃ r1 r2 rN rM,
    run e N1 M1 = Some r1 ∧ run e N2 M2 = Some r2 ∧
    r1 !! i = r2 !! i ∧
    run e (<[j:=x]> N1) M1 = Some rN ∧
    run e N1 (<[j:=x]> M1) = Some rM ∧
    (∀ k, k ≠ j → rN !! k = r1 !! k ∧ rM !! k = r1 !! k) ∧
    rN !! j = hadd_lane (entry_type e) x <$> M1 !! j ∧
    rM !! j = (λ a, hadd_lane (entry_type e) a x) <$> N1 !! j.
Proof.
  intros HN1 HM1 HN2 HM2 Ha Hb Hx.
  pose proof (operand_insert e N1 j x HN1 Hx) as HN1'.
  pose proof (operand_insert e M1 j x HM1 Hx) as HM1'.
  do 4 eexists.
  split; [by apply run_operands|].
  split; [by apply run_operands|].
  split; [by rewrite !lookup_zip_with, Ha, Hb|].
  split; [by apply run_operands|].
  split; [by apply run_operands|].
  split_and!.
  - intros k Hk. rewrite !lookup_zip_with.
    rewrite !list_lookup_insert_ne by done. done.
  - rewrite lookup_zip_with.
    destruct HN1 as [HlN _], HM1 as [HlM _].
    destruct (decide (j < entry_lanes e)%nat) as [Hj|Hj].
    + rewrite list_lookup_insert_eq by lia. simpl.
      by destruct (M1 !! j).
    + rewrite (lookup_ge_None_2 M1) by lia.
      rewrite lookup_ge_None_2; [done|]. rewrite length_insert. lia.
  - rewrite lookup_zip_with.
    destruct HN1 as [HlN _], HM1 as [HlM _].
    destruct (decide (j < entry_lanes e)%nat) as [Hj|Hj].
    + rewrite list_lookup_insert_eq by lia.
      by destruct (N1 !! j).
    + by rewrite (lookup_ge_None_2 N1) by lia.
Qed.

Lemma lane_independence_witness :
  ∃ r1 r2 rN rM,
    run Vhadd_s16 [5; -7; 32767; 0] [1; 2; 32767; 4] = Some r1 ∧
    run Vhadd_s16 [9; -7; -32768; 8] [3; 2; -32768; -4] = Some r2 ∧
    r1 !! 1%nat = r2 !! 1%nat ∧
    run Vhadd_s16 (<[2%nat:=100]> [5; -7; 32767; 0]) [1; 2; 32767; 4]
    = Some rN ∧
    run Vhadd_s16 [5; -7; 32767; 0] (<[2%nat:=100]> [1; 2; 32767; 4])
    = Some rM ∧
    (∀ k, k ≠ 2%nat → rN !! k = r1 !! k ∧ rM !! k = r1 !! k) ∧
    rN !! 2%nat = hadd_lane Int16 100 <$> [1; 2; 32767; 4] !! 2%nat ∧
    rM !! 2%nat
    = (λ a, hadd_lane Int16 a 100) <$> [5; -7; 32767; 0] !! 2%nat.
Proof.
  apply (lane_independence Vhadd_s16 1 2 100
           [5; -7; 32767; 0] [1; 2; 32767; 4]
           [9; -7; -32768; 8] [3; 2; -32768; -4]); compute_done.
Defined.

(** C7.  No entry writes its operands.  On two operands of its shape an
    entry reaches its [return] with both parameters holding the lanes they
    were passed, so the caller's vectors, of which the parameters are
    copies, hold them too; the vector returned is the local [D], an operand
    of the same shape.  Nor does a run that returns on any other input
    write a parameter. *)
Theorem operands_not_written e N M :
  operand e N → operand e M →
  ∃ f, run_frame e N M = Some f ∧
       frame_N f = N ∧ frame_M f = M ∧
       run e N M = Some (frame_D f) ∧ operand e (frame_D f) ∧
       ∀ N' M' f', run_frame e N' M' = Some f' →
                   frame_N f' = N' ∧ frame_M f' = M'.
Proof.
  intros HN HM. eexists. split; [by apply run_frame_operands|]. simpl.
  split_and!; [done|done|by apply run_operands|by apply operand_zip|].
  intros N' M' f' H. unfold run_frame, hadd_frame in H.
  apply for_loop_frame in H as (H1 & H2 & _). done.
Qed.

Lemma operands_not_written_witness :
  ∃ f, run_frame Vhaddq_u8
         [255; 0; 1; 2; 3; 4; 5; 6; 7; 8; 9; 10; 11; 12; 13; 14]
         [255; 1; 1; 1; 1; 1; 1; 1; 1; 1; 1; 1; 1; 1; 1; 255] = Some f ∧
       frame_N f = [255; 0; 1; 2; 3; 4; 5; 6; 7; 8; 9; 10; 11; 12; 13; 14] ∧
       frame_M f = [255; 1; 1; 1; 1; 1; 1; 1; 1; 1; 1; 1; 1; 1; 1; 255] ∧
       run Vhaddq_u8
         [255; 0; 1; 2; 3; 4; 5; 6; 7; 8; 9; 10; 11; 12; 13; 14]
         [255; 1; 1; 1; 1; 1; 1; 1; 1; 1; 1; 1; 1; 1; 1; 255]
       = Some (frame_D f) ∧
       operand Vhaddq_u8 (frame_D f) ∧
       ∀ N' M' f', run_frame Vhaddq_u8 N' M' = Some f' →
                   frame_N f' = N' ∧ frame_M f' = M'.
Proof.
  apply (operands_not_written Vhaddq_u8
           [255; 0; 1; 2; 3; 4; 5; 6; 7; 8; 9; 10; 11; 12; 13; 14]
           [255; 1; 1; 1; 1; 1; 1; 1; 1; 1; 1; 1; 1; 1; 1; 255]);
    compute_done.
Defined.

(** The two entries over [uint32_t] lanes. *)
Lemma entry_type_u32 e :
  entry_type e = UInt32 ↔ e = Vhadd_u32 ∨ e = Vhaddq_u32.
Proof.
  destruct e; simpl; split;
    first [discriminate | intros [?|?]; discriminate | auto].
Qed.

(** C8.  [vhadd_u32] and [vhaddq_u32], on operands of their shape: the
    lane of the result at every index [i] is
    [((a[i] + b[i]) mod 2^32) >> 1], the sum being taken in the 32 bits of
    the lane; on the in-domain lanes [a[i] = b[i] = 2^32 - 1] this is not
    the floor of [(a[i] + b[i]) / 2]. *)
Theorem u32_entries_reduce_sum e N M i :
  e = Vhadd_u32 ∨ e = Vhaddq_u32 →
  operand e N → operand e M → (i < entry_lanes e)%nat →
  ∃ r a b,
    run e N M = Some r ∧ N !! i = Some a ∧ M !! i = Some b ∧
    r !! i = Some (Z.shiftr ((a + b) mod 2 ^ 32) 1) ∧
    in_range UInt32 (2 ^ 32 - 1) ∧
    hadd_lane UInt32 (2 ^ 32 - 1) (2 ^ 32 - 1)
    = Z.shiftr ((2 ^ 32 - 1 + (2 ^ 32 - 1)) mod 2 ^ 32) 1 ∧
    hadd_lane UInt32 (2 ^ 32 - 1) (2 ^ 32 - 1)
    ≠ (2 ^ 32 - 1 + (2 ^ 32 - 1)) / 2.
Proof.
  intros He HN HM Hi. apply entry_type_u32 in He.
  destruct (operand_lookup e N i HN Hi) as (a & Ha & Ra).
  destruct (operand_lookup e M i HM Hi) as (b & Hb & Rb).
  destruct (run_lane e N M i a b) as (r & Hr & Hl); [done..|].
  rewrite He in Ra, Rb, Hl.
  exists r, a, b. split_and!; [done|done|done| |compute_done..].
  by rewrite Hl, hadd_lane_u32.
Qed.

Lemma u32_entries_reduce_sum_witness :
  ∃ r a b,
    run Vhaddq_u32 [7; 4294967295; 1; 0] [8; 4294967295; 0; 0] = Some r ∧
    [7; 4294967295; 1; 0] !! 1%nat = Some a ∧
    [8; 4294967295; 0; 0] !! 1%nat = Some b ∧
    r !! 1%nat = Some (Z.shiftr ((a + b) mod 2 ^ 32) 1) ∧
    in_range UInt32 (2 ^ 32 - 1) ∧
    hadd_lane UInt32 (2 ^ 32 - 1) (2 ^ 32 - 1)
    = Z.shiftr ((2 ^ 32 - 1 + (2 ^ 32 - 1)) mod 2 ^ 32) 1 ∧
    hadd_lane UInt32 (2 ^ 32 - 1) (2 ^ 32 - 1)
    ≠ (2 ^ 32 - 1 + (2 ^ 32 - 1)) / 2.
Proof.
  apply (u32_entries_reduce_sum Vhaddq_u32
           [7; 4294967295; 1; 0] [8; 4294967295; 0; 0] 1).
  - right. reflexivity.
  - compute_done.
  - compute_done.
  - simpl. lia.
Defined.

(** C9.  For every width and signedness, the entry over the 64-bit vector
    and the entry over the 128-bit vector compute the same function of a
    lane: where a lane of the one and a lane of the other hold the same
    in-domain pair [(a, b)], the two lanes of the results are equal. *)
Theorem d_and_q_entries_agree d q Nd Md Nq Mq i j a b :
  same_element d q →
  operand d Nd → operand d Md → operand q Nq → operand q Mq →
  Nd !! i = Some a → Md !! i = Some b →
  Nq !! j = Some a → Mq !! j = Some b →
  ∃ rd rq,
    run d Nd Md = Some rd ∧ run q Nq Mq = Some rq ∧
    rd !! i = rq !! j ∧ rd !! i = Some (hadd_lane (entry_type d) a b).
Proof.
  intros (Ht & _ & _) HNd HMd HNq HMq Hi1 Hi2 Hj1 Hj2.
  destruct (run_lane d Nd Md i a b) as (rd & Hrd & Hld); [done..|].
  destruct (run_lane q Nq Mq j a b) as (rq & Hrq & Hlq); [done..|].
  exists rd, rq. split_and!; [done|done| |done].
  by rewrite Hld, Hlq, Ht.
Qed.

Lemma d_and_q_entries_agree_witness :
  ∃ rd rq,
    run Vhadd_s32 [-5; 2147483647] [9; 2147483647] = Some rd ∧
    run Vhaddq_s32 [0; 1; 2147483647; 3] [0; 1; 2147483647; -3] = Some rq ∧
    rd !! 1%nat = rq !! 2%nat ∧
    rd !! 1%nat = Some (hadd_lane (entry_type Vhadd_s32) 2147483647 2147483647).
Proof.
  apply (d_and_q_entries_agree Vhadd_s32 Vhaddq_s32
           [-5; 2147483647] [9; 2147483647]
           [0; 1; 2147483647; 3] [0; 1; 2147483647; -3]
           1 2 2147483647 2147483647); compute_done.
Defined.

(** Every element type has its pair of entries, so C9 leaves none out. *)
Lemma same_element_total t :
  ∃ d q, same_element d q ∧ entry_type d = t.
Proof.
  destruct t;
    [exists Vhadd_s8, Vhaddq_s8|exists Vhadd_s16, Vhaddq_s16
    |exists Vhadd_s32, Vhaddq_s32|exists Vhadd_u8, Vhaddq_u8
    |exists Vhadd_u16, Vhaddq_u16|exists Vhadd_u32, Vhaddq_u32];
    by compute.
Qed.

(** C10.  Every entry is commutative: on two operands of its shape it
    returns the same vector whichever of them comes first. *)
Theorem run_comm e N M :
  operand e N → operand e M →
  ∃ r, run e N M = Some r ∧ run e M N = Some r.
Proof.
  intros HN HM. eexists. split; [by apply run_operands|].
  rewrite run_operands by done. f_equal.
  apply list_eq. intros k. rewrite !lookup_zip_with.
  destruct (N !! k), (M !! k); simpl; try done.
  by rewrite hadd_lane_comm.
Qed.

Lemma run_comm_witness :
  ∃ r, run Vhaddq_u32 [4294967295; 1; 2; 3] [4294967295; 0; 7; 10] = Some r ∧
       run Vhaddq_u32 [4294967295; 0; 7; 10] [4294967295; 1; 2; 3] = Some r.
Proof.
  apply (run_comm Vhaddq_u32 [4294967295; 1; 2; 3] [4294967295; 0; 7; 10]);
    compute_done.
Defined.

(** * Further properties of the halving-add entries *)

Lemma run_lane_narrow_exact_witness :
  ∃ r, run Vhaddq_u16 [65535; 0; 1; 2; 3; 4; 5; 6]
                      [65535; 1; 1; 1; 1; 1; 1; 1] = Some r ∧
       r !! 0%nat = Some (spec_halving_add (entry_type Vhaddq_u16) 65535 65535) ∧
       r !! 0%nat = Some (Z.shiftr (65535 + 65535) 1).
Proof.
  apply (run_lane_narrow_exact Vhaddq_u16
           [65535; 0; 1; 2; 3; 4; 5; 6] [65535; 1; 1; 1; 1; 1; 1; 1]
           0 65535 65535); compute_done.
Defined.

(** On the entries over lanes of 8 or 16 bits a lane of the result lies
    between the two lanes it is computed from. *)
Theorem narrow_lane_between e N M i a b :
  narrow (entry_type e) →
  operand e N → operand e M → N !! i = Some a → M !! i = Some b →
  ∃ r x, run e N M = Some r ∧ r !! i = Some x ∧
         Z.min a b ≤ x ≤ Z.max a b.
Proof.
  intros Hn HN HM Ha Hb.
  destruct (run_lane e N M i a b) as (r & Hr & Hi); [done..|].
  pose proof (operand_in_range _ _ _ _ HN Ha).
  pose proof (operand_in_range _ _ _ _ HM Hb).
  exists r, ((a + b) / 2). split; [done|]. split.
  - by rewrite Hi, hadd_lane_narrow.
  - Z.div_mod_to_equations. lia.
Qed.

Lemma narrow_lane_between_witness :
  ∃ r x, run Vhadd_s16 [-32768; 7; 0; 0] [32767; 0; 0; 0] = Some r ∧
         r !! 0%nat = Some x ∧
         Z.min (-32768) 32767 ≤ x ≤ Z.max (-32768) 32767.
Proof.
  apply (narrow_lane_between Vhadd_s16
           [-32768; 7; 0; 0] [32767; 0; 0; 0] 0 (-32768) 32767);
    compute_done.
Defined.

(** On the entries over lanes of 8 or 16 bits the halving add of a vector
    with itself returns the vector. *)
Theorem narrow_run_same e N :
  narrow (entry_type e) → operand e N → run e N N = Some N.
Proof.
  intros Hn HN. rewrite run_operands by done. f_equal.
  apply list_eq. intros i. rewrite lookup_zip_with.
  destruct (N !! i) as [a|] eqn:Ha; simpl; [|done].
  pose proof (operand_in_range _ _ _ _ HN Ha).
  rewrite hadd_lane_narrow by done. f_equal.
  Z.div_mod_to_equations. lia.
Qed.

Lemma narrow_run_same_witness :
  run Vhadd_u8 [255; 254; 1; 0; 128; 127; 7; 200]
               [255; 254; 1; 0; 128; 127; 7; 200]
  = Some [255; 254; 1; 0; 128; 127; 7; 200].
Proof.
  apply (narrow_run_same Vhadd_u8 [255; 254; 1; 0; 128; 127; 7; 200]);
    compute_done.
Defined.

(** On the two entries over [uint32_t] lanes a lane of the result is
    below [2^31]: it is the floor of the half of the sum when the sum is
    below [2^32], and [2^31] less than that when it is not. *)
Theorem u32_lane_cases e N M i a b :
  entry_type e = UInt32 →
  operand e N → operand e M → N !! i = Some a → M !! i = Some b →
  ∃ r x, run e N M = Some r ∧ r !! i = Some x ∧
         0 ≤ x < 2 ^ 31 ∧
         (a + b < 2 ^ 32 → x = (a + b) / 2) ∧
         (2 ^ 32 ≤ a + b → x = (a + b) / 2 - 2 ^ 31).
Proof.
  intros Ht HN HM Ha Hb.
  destruct (run_lane e N M i a b) as (r & Hr & Hi); [done..|].
  pose proof (operand_in_range _ _ _ _ HN Ha) as Ra.
  pose proof (operand_in_range _ _ _ _ HM Hb) as Rb.
  rewrite Ht in Hi, Ra, Rb.
  rewrite hadd_lane_u32 in Hi by done.
  rewrite Z.shiftr_div_pow2 in Hi by lia.
  exists r, ((a + b) mod 2 ^ 32 / 2 ^ 1). split; [done|]. split; [done|].
  unfold in_range, min_val, max_val in Ra, Rb. simpl in Ra, Rb.
  change (2 ^ 32) with 4294967296 in *.
  change (2 ^ 31) with 2147483648. change (2 ^ 1) with 2.
  split_and!; [| |intros Hs|intros Hs]; Z.div_mod_to_equations; lia.
Qed.

Lemma u32_lane_cases_witness :
  ∃ r x, run Vhadd_u32 [4294967295; 6] [1; 9] = Some r ∧
         r !! 0%nat = Some x ∧
         0 ≤ x < 2 ^ 31 ∧
         (4294967295 + 1 < 2 ^ 32 → x = (4294967295 + 1) / 2) ∧
         (2 ^ 32 ≤ 4294967295 + 1 → x = (4294967295 + 1) / 2 - 2 ^ 31).
Proof.
  apply (u32_lane_cases Vhadd_u32 [4294967295; 6] [1; 9] 0 4294967295 1);
    compute_done.
Defined.

(** On the two entries over [int32_t] lanes, where the sum of two lanes is
    in the range of [int] the lane of the result is the floor of its
    half. *)
Theorem s32_lane_no_overflow e N M i a b :
  entry_type e = Int32 →
  operand e N → operand e M → N !! i = Some a → M !! i = Some b →
  - 2 ^ 31 ≤ a + b < 2 ^ 31 →
  ∃ r, run e N M = Some r ∧ r !! i = Some ((a + b) / 2).
Proof.
  intros Ht HN HM Ha Hb Hs.
  destruct (run_lane e N M i a b) as (r & Hr & Hi); [done..|].
  rewrite Ht, hadd_lane_s32 in Hi.
  exists r. split; [done|]. rewrite Hi. f_equal.
  rewrite Z.shiftr_div_pow2 by lia. unfold wrap.
  change (2 ^ (32 - 1)) with 2147483648.
  change (2 ^ 32) with 4294967296.
  change (2 ^ 31) with 2147483648 in Hs. change (2 ^ 1) with 2.
  Z.div_mod_to_equations. lia.
Qed.

Lemma s32_lane_no_overflow_witness :
  ∃ r, run Vhaddq_s32 [-2147483648; 1; 2; 3] [2147483647; 1; 2; 3] = Some r ∧
       r !! 0%nat = Some ((-2147483648 + 2147483647) / 2).
Proof.
  apply (s32_lane_no_overflow Vhaddq_s32
           [-2147483648; 1; 2; 3] [2147483647; 1; 2; 3]
           0 (-2147483648) 2147483647); compute_done.
Defined.

(** * The OpenCV helpers *)

(** ** [clip] and [in_range] *)

(** [clip] returns a value of the closed interval between the two bounds,
    in whichever order they are given: the value nearest to [val] in it,
    which [in_range] accepts. *)
Theorem clip_within val minval maxval :
  Z.min minval maxval ≤ och.clip val minval maxval ≤ Z.max minval maxval ∧
  och.clip val minval maxval
  = Z.max (Z.min minval maxval) (Z.min val (Z.max minval maxval)) ∧
  och.in_range (och.clip val minval maxval) minval maxval = true.
Proof.
  unfold och.clip, och.in_range.
  repeat (case_decide; simpl); split_and!; try done; lia.
Qed.

(** [clip] leaves [val] as it is exactly when [in_range] accepts it. *)
Theorem clip_fixed_iff_in_range val minval maxval :
  och.clip val minval maxval = val ↔ och.in_range val minval maxval = true.
Proof.
  unfold och.clip, och.in_range.
  repeat (case_decide; simpl); split; intros; try done; lia.
Qed.

(** The order of the two bounds does not matter to [clip] nor to
    [in_range]. *)
Theorem clip_bounds_swap val minval maxval :
  och.clip val minval maxval = och.clip val maxval minval ∧
  och.in_range val minval maxval = och.in_range val maxval minval.
Proof.
  unfold och.clip, och.in_range.
  repeat (case_decide; simpl); split; try done; lia.
Qed.

(** [clip] is monotone in [val], and clipping twice is clipping once. *)
Theorem clip_monotone val val' minval maxval :
  val ≤ val' →
  och.clip val minval maxval ≤ och.clip val' minval maxval ∧
  och.clip (och.clip val minval maxval) minval maxval
  = och.clip val minval maxval.
Proof.
  intros H. unfold och.clip.
  repeat (case_decide; simpl); split; lia.
Qed.

Lemma clip_monotone_witness :
  och.clip (-3) 10 0 ≤ och.clip 25 10 0 ∧
  och.clip (och.clip (-3) 10 0) 10 0 = och.clip (-3) 10 0.
Proof. apply (clip_monotone (-3) 25 10 0). lia. Defined.

(** ** Colours *)

(** The three components [get_bgr_color_from_hex] returns are the digits
    of [hex] in base 256, the first one the most significant, for every
    [hex], negative ones too; [get_rgb_color_from_hex] returns them in the
    opposite order. *)
Theorem color_from_hex_digits hex :
  ∃ b g r,
    och.get_bgr_color_from_hex hex = [b; g; r; 0] ∧
    och.get_rgb_color_from_hex hex = [r; g; b; 0] ∧
    b * 65536 + g * 256 + r = hex ∧
    Z.abs g ≤ 255 ∧ Z.abs r ≤ 255.
Proof.
  unfold och.get_bgr_color_from_hex, och.get_rgb_color_from_hex, och.Scalar3.
  do 3 eexists. split; [done|]. split; [done|].
  split_and!; Z.quot_rem_to_equations; lia.
Qed.

(** Every component of the colour is a byte exactly when [hex] has at most
    24 bits: [0 ≤ hex ≤ 0xFFFFFF]. *)
Theorem color_from_hex_bytes hex :
  Forall (λ v, 0 ≤ v ≤ 255) (och.get_bgr_color_from_hex hex)
  ↔ 0 ≤ hex ≤ 16777215.
Proof.
  unfold och.get_bgr_color_from_hex, och.Scalar3.
  rewrite !Forall_cons, Forall_nil. split.
  - intros (Hb & Hg & Hr & _). Z.quot_rem_to_equations. lia.
  - intros H. split_and!; try done; Z.quot_rem_to_equations; lia.
Qed.

(** ** Counting loops *)

(** A loop whose body keeps an invariant, indexed by the counter, and
    returns wherever the invariant holds: the loop returns, with the
    invariant at the bound. *)
Lemma for_range_invariant {St : Type} (body : nat → St → option St)
    (I : nat → St → Prop) k : ∀ i s,
  I i s →
  (∀ j t, (i ≤ j < i + k)%nat → I j t →
          ∃ t', body j t = Some t' ∧ I (S j) t') →
  ∃ s', for_range body i k s = Some s' ∧ I (i + k)%nat s'.
Proof.
  induction k as [|k IH]; intros i s Hi Hstep; simpl.
  - exists s. by rewrite Nat.add_0_r.
  - destruct (Hstep i s) as (t & Hb & Ht); [lia|done|].
    rewrite Hb. simpl.
    destruct (IH (S i) t) as (s' & Hr & Hs'); [done| |].
    + intros j u Hj. apply Hstep. lia.
    + exists s'. split; [done|]. by replace (i + S k)%nat with (S i + k)%nat by lia.
Qed.

(** ** [compute_hamming_dist] *)

Section hamming.

Implicit Types feat : list Z.

Lemma hamming_body_sym feat1 feat2 i dis :
  och.hamming_body feat1 feat2 i dis = och.hamming_body feat2 feat1 i dis.
Proof.
  unfold och.hamming_body.
  destruct (feat1 !! i) as [a|], (feat2 !! i) as [b|]; simpl; try done.
  repeat case_decide; done || congruence.
Qed.

Lemma hamming_body_Some feat1 feat2 i dis d :
  och.hamming_body feat1 feat2 i dis = Some d →
  ∃ a b, feat1 !! i = Some a ∧ feat2 !! i = Some b ∧
         d = if decide (a ≠ b) then dis + 1 else dis.
Proof.
  unfold och.hamming_body. intros H.
  destruct (feat1 !! i) as [a|]; simpl in H; [|done].
  destruct (feat2 !! i) as [b|]; simpl in H; [|done].
  injection H as <-. by exists a, b.
Qed.

Lemma hamming_loop_sym feat1 feat2 k : ∀ i dis,
  for_range (och.hamming_body feat1 feat2) i k dis
  = for_range (och.hamming_body feat2 feat1) i k dis.
Proof.
  induction k as [|k IH]; intros i dis; simpl; [done|].
  rewrite hamming_body_sym.
  destruct (och.hamming_body feat2 feat1 i dis); simpl; [apply IH|done].
Qed.

(** A loop that returns has counted, from [dis], the indices of
    [i, i + k) at which the two arrays differ: at most [k], and none
    exactly when the arrays agree there. *)
Lemma hamming_loop_count feat1 feat2 k : ∀ i dis r,
  for_range (och.hamming_body feat1 feat2) i k dis = Some r →
  dis ≤ r ≤ dis + Z.of_nat k ∧
  (r = dis ↔ ∀ j, (i ≤ j < i + k)%nat → feat1 !! j = feat2 !! j).
Proof.
  induction k as [|k IH]; intros i dis r H; simpl in H.
  - injection H as <-. split; [lia|]. split; [intros _ j Hj; lia|done].
  - destruct (och.hamming_body feat1 feat2 i dis) as [d|] eqn:Hd;
      simpl in H; [|done].
    apply hamming_body_Some in Hd as (a & b & Ha & Hb & ->).
    apply IH in H as [Hr Hz]. case_decide as Hab.
    + split; [lia|]. split; [lia|]. intros Hall.
      specialize (Hall i). rewrite Ha, Hb in Hall.
      exfalso. apply Hab. assert (Some a = Some b) as [= ->] by (apply Hall; lia).
      done.
    + subst b. split; [lia|].
      rewrite Hz. split.
      * intros Hall j Hj. destruct (decide (j = i)) as [->|]; [congruence|].
        apply Hall. lia.
      * intros Hall j Hj. apply Hall. lia.
Qed.

Lemma hamming_loop_Some feat1 feat2 k : ∀ i dis,
  (i + k ≤ length feat1)%nat → (i + k ≤ length feat2)%nat →
  is_Some (for_range (och.hamming_body feat1 feat2) i k dis).
Proof.
  induction k as [|k IH]; intros i dis H1 H2; simpl; [done|].
  destruct (lookup_lt_is_Some_2 feat1 i) as [a Ha]; [lia|].
  destruct (lookup_lt_is_Some_2 feat2 i) as [b Hb]; [lia|].
  replace (och.hamming_body feat1 feat2 i dis)
    with (Some (if decide (a ≠ b) then dis + 1 else dis))
    by (unfold och.hamming_body; by rewrite Ha, Hb).
  simpl. apply IH; lia.
Qed.

Lemma hamming_loop_bounds feat1 feat2 k : ∀ i dis r,
  for_range (och.hamming_body feat1 feat2) i (S k) dis = Some r →
  (i + S k ≤ length feat1)%nat ∧ (i + S k ≤ length feat2)%nat.
Proof.
  induction k as [|k IH]; intros i dis r H; simpl in H;
    (destruct (och.hamming_body feat1 feat2 i dis) as [d|] eqn:Hd;
      simpl in H; [|done]);
    apply hamming_body_Some in Hd as (a & b & Ha & Hb & ->);
    apply lookup_lt_Some in Ha, Hb.
  - lia.
  - apply IH in H. lia.
Qed.

Lemma hamming_loop_triangle feat1 feat2 feat3 k : ∀ i d12 d23 d13 r12 r23 r13,
  for_range (och.hamming_body feat1 feat2) i k d12 = Some r12 →
  for_range (och.hamming_body feat2 feat3) i k d23 = Some r23 →
  for_range (och.hamming_body feat1 feat3) i k d13 = Some r13 →
  d13 ≤ d12 + d23 → r13 ≤ r12 + r23.
Proof.
  induction k as [|k IH]; intros i d12 d23 d13 r12 r23 r13 H12 H23 H13 Hd;
    simpl in H12, H23, H13.
  - congruence.
  - destruct (och.hamming_body feat1 feat2 i d12) as [e12|] eqn:E12;
      simpl in H12; [|done].
    destruct (och.hamming_body feat2 feat3 i d23) as [e23|] eqn:E23;
      simpl in H23; [|done].
    destruct (och.hamming_body feat1 feat3 i d13) as [e13|] eqn:E13;
      simpl in H13; [|done].
    apply hamming_body_Some in E12 as (a & b & Ha & Hb & ->).
    apply hamming_body_Some in E23 as (b' & c & Hb' & Hc & ->).
    apply hamming_body_Some in E13 as (a' & c' & Ha' & Hc' & ->).
    assert (a' = a) as -> by congruence.
    assert (b' = b) as -> by congruence.
    assert (c' = c) as -> by congruence.
    eapply IH; [done..|].
    repeat case_decide; first [lia | congruence].
Qed.

End hamming.

(** [compute_hamming_dist] is symmetric in its two arrays. *)
Theorem compute_hamming_dist_sym (feat1 feat2 : list Z) len :
  och.compute_hamming_dist feat1 feat2 len
  = och.compute_hamming_dist feat2 feat1 len.
Proof. apply hamming_loop_sym. Qed.

(** [compute_hamming_dist] returns exactly when [len] is not positive or
    both arrays have [len] elements; for a [len] that is not positive it
    returns 0 without reading either array. *)
Theorem compute_hamming_dist_returns (feat1 feat2 : list Z) len :
  (is_Some (och.compute_hamming_dist feat1 feat2 len) ↔
   len ≤ 0 ∨ (len ≤ Z.of_nat (length feat1) ∧ len ≤ Z.of_nat (length feat2))) ∧
  (len ≤ 0 → och.compute_hamming_dist feat1 feat2 len = Some 0).
Proof.
  unfold och.compute_hamming_dist. split; [split|].
  - intros [r Hr]. destruct (Z.to_nat len) as [|k] eqn:Hk; [lia|].
    apply hamming_loop_bounds in Hr. lia.
  - intros [H|[H1 H2]].
    + by replace (Z.to_nat len) with 0%nat by lia.
    + apply hamming_loop_Some; lia.
  - intros H. by replace (Z.to_nat len) with 0%nat by lia.
Qed.

(** The distance [compute_hamming_dist] returns is between 0 and [len],
    and it is 0 exactly when the two arrays agree at every index below
    [len]. *)
Theorem compute_hamming_dist_zero (feat1 feat2 : list Z) len d :
  och.compute_hamming_dist feat1 feat2 len = Some d →
  0 ≤ d ≤ Z.max 0 len ∧
  (d = 0 ↔ ∀ j, (Z.of_nat j < len) → feat1 !! j = feat2 !! j).
Proof.
  unfold och.compute_hamming_dist. intros H.
  apply hamming_loop_count in H as [Hr Hz]. split; [lia|].
  rewrite Hz. split; intros Hall j Hj; apply Hall; lia.
Qed.

Lemma compute_hamming_dist_zero_witness :
  0 ≤ 2 ≤ Z.max 0 4 ∧
  (2 = 0 ↔ ∀ j, (Z.of_nat j < 4) →
               [1; 0; 1; 1; 9] !! j = [1; 1; 0; 1] !! j).
Proof.
  apply (compute_hamming_dist_zero [1; 0; 1; 1; 9] [1; 1; 0; 1] 4 2).
  reflexivity.
Defined.

(** [compute_hamming_dist] satisfies the triangle inequality. *)
Theorem compute_hamming_dist_triangle (feat1 feat2 feat3 : list Z) len
    d12 d23 d13 :
  och.compute_hamming_dist feat1 feat2 len = Some d12 →
  och.compute_hamming_dist feat2 feat3 len = Some d23 →
  och.compute_hamming_dist feat1 feat3 len = Some d13 →
  d13 ≤ d12 + d23.
Proof.
  unfold och.compute_hamming_dist. intros H12 H23 H13.
  by eapply (hamming_loop_triangle feat1 feat2 feat3); [done..|lia].
Qed.

Lemma compute_hamming_dist_triangle_witness : 3 ≤ 2 + 1.
Proof.
  apply (compute_hamming_dist_triangle
           [1; 0; 1; 1] [0; 1; 1; 1] [0; 1; 0; 1] 4 2 1 3); reflexivity.
Defined.

(** ** [mat_type_to_string] *)

Section mat_type.

(** The depth of a type is its remainder by 8, and its channel count one
    more than the next nine bits. *)
Lemma CV_MAT_DEPTH_mod type : och.CV_MAT_DEPTH type = type mod 8.
Proof.
  unfold och.CV_MAT_DEPTH. change 7 with (Z.ones 3).
  by rewrite Z.land_ones by lia.
Qed.

Lemma CV_MAT_CN_div type : och.CV_MAT_CN type = (type / 8) mod 512 + 1.
Proof.
  unfold och.CV_MAT_CN. rewrite Z.shiftr_land.
  change (Z.shiftr 4088 3) with (Z.ones 9).
  rewrite Z.land_ones, Z.shiftr_div_pow2 by lia. done.
Qed.

Lemma depth_cases type :
  ∃ d, och.CV_MAT_DEPTH type = d ∧
       (d = 0 ∨ d = 1 ∨ d = 2 ∨ d = 3 ∨ d = 4 ∨ d = 5 ∨ d = 6 ∨ d = 7).
Proof.
  exists (och.CV_MAT_DEPTH type). split; [done|].
  rewrite CV_MAT_DEPTH_mod. pose proof (Z.mod_pos_bound type 8). lia.
Qed.

(** A character is appended after the name and [C]; the names of two
    different depths differ, so two equal strings have the same depth and
    the same last character. *)
Lemma depth_name_char_inj d1 d2 c1 c2 :
  (d1 = 0 ∨ d1 = 1 ∨ d1 = 2 ∨ d1 = 3 ∨ d1 = 4 ∨ d1 = 5 ∨ d1 = 6 ∨ d1 = 7) →
  (d2 = 0 ∨ d2 = 1 ∨ d2 = 2 ∨ d2 = 3 ∨ d2 = 4 ∨ d2 = 5 ∨ d2 = 6 ∨ d2 = 7) →
  ((och.depth_name d1 ++ "C") ++ String c1 "")%string
  = ((och.depth_name d2 ++ "C") ++ String c2 "")%string →
  d1 = d2 ∧ c1 = c2.
Proof.
  intros H1 H2.
  destruct H1 as [->|[->|[->|[->|[->|[->|[->| ->]]]]]]];
    destruct H2 as [->|[->|[->|[->|[->|[->|[->| ->]]]]]]];
    cbv [och.depth_name decide decide_rel och.CV_8U och.CV_8S och.CV_16U
         och.CV_16S och.CV_32S och.CV_32F och.CV_64F och.CV_16F];
    simpl; intros H; first [discriminate H | by injection H].
Qed.

Lemma char_of_int_inj x y :
  och.char_of_int x = och.char_of_int y → x mod 256 = y mod 256.
Proof.
  unfold och.char_of_int. intros H.
  apply (f_equal Ascii.N_of_ascii) in H.
  pose proof (Z.mod_pos_bound x 256). pose proof (Z.mod_pos_bound y 256).
  rewrite !Ascii.N_ascii_embedding in H by lia. lia.
Qed.

Lemma string_length_app (s1 s2 : string) :
  String.length (s1 ++ s2) = (String.length s1 + String.length s2)%nat.
Proof. induction s1 as [|c s1 IH]; simpl; [done|]. by rewrite IH. Qed.

End mat_type.

(** Two types below 2048, that is, of at most 256 channels, that
    [mat_type_to_string] prints alike are the same type. *)
Theorem mat_type_to_string_inj t1 t2 :
  0 ≤ t1 < 2048 → 0 ≤ t2 < 2048 →
  och.mat_type_to_string t1 = och.mat_type_to_string t2 → t1 = t2.
Proof.
  intros H1 H2 Heq. unfold och.mat_type_to_string in Heq.
  destruct (depth_cases t1) as (d1 & Hd1 & Hc1).
  destruct (depth_cases t2) as (d2 & Hd2 & Hc2).
  rewrite Hd1, Hd2 in Heq.
  apply depth_name_char_inj in Heq as [Hd Hc]; [|done..].
  apply char_of_int_inj in Hc.
  rewrite CV_MAT_DEPTH_mod in Hd1, Hd2. rewrite !CV_MAT_CN_div in Hc.
  Z.div_mod_to_equations. lia.
Qed.

Lemma mat_type_to_string_inj_witness : 19 = 19.
Proof.
  apply (mat_type_to_string_inj 19 19); [lia|lia|reflexivity].
Defined.

(** Adding 2048 to a type, which is 256 channels more, does not change
    what [mat_type_to_string] prints: the appended character keeps the low
    eight bits of [cn + '0'] only. *)
Theorem mat_type_to_string_period type :
  och.mat_type_to_string (type + 2048) = och.mat_type_to_string type.
Proof.
  unfold och.mat_type_to_string, och.char_of_int.
  rewrite !CV_MAT_DEPTH_mod, !CV_MAT_CN_div.
  replace ((type + 2048) mod 8) with (type mod 8)
    by (Z.div_mod_to_equations; lia).
  replace ((((type + 2048) / 8) mod 512 + 1 + 48) mod 256)
    with (((type / 8) mod 512 + 1 + 48) mod 256)
    by (Z.div_mod_to_equations; lia).
  done.
Qed.

(** [mat_type_to_string] spends one character on the channel count,
    whatever the count: for the types of at most 9 channels the string is
    the depth, [C] and the count in decimal, and from 10 channels on the one
    character cannot be the count. *)
Theorem mat_type_to_string_digit type :
  (och.CV_MAT_CN type ≤ 9 →
   och.mat_type_to_string type
   = ((och.depth_name (och.CV_MAT_DEPTH type) ++ "C")
      ++ pretty (och.CV_MAT_CN type))%string) ∧
  String.length (och.mat_type_to_string type)
  = (String.length (och.depth_name (och.CV_MAT_DEPTH type)) + 2)%nat ∧
  1 ≤ och.CV_MAT_CN type ≤ 512.
Proof.
  split; [|split].
  - intros Hcn. unfold och.mat_type_to_string. f_equal.
    assert (1 ≤ och.CV_MAT_CN type)
      by (rewrite CV_MAT_CN_div; Z.div_mod_to_equations; lia).
    assert (och.CV_MAT_CN type = 1 ∨ och.CV_MAT_CN type = 2 ∨
            och.CV_MAT_CN type = 3 ∨ och.CV_MAT_CN type = 4 ∨
            och.CV_MAT_CN type = 5 ∨ och.CV_MAT_CN type = 6 ∨
            och.CV_MAT_CN type = 7 ∨ och.CV_MAT_CN type = 8 ∨
            och.CV_MAT_CN type = 9) as Hcase by lia.
    destruct Hcase as [->|[->|[->|[->|[->|[->|[->|[->| ->]]]]]]]];
      reflexivity.
  - unfold och.mat_type_to_string. rewrite !string_length_app. simpl. lia.
  - rewrite CV_MAT_CN_div. Z.div_mod_to_equations. lia.
Qed.

(** ** [compute_phash] and [is_hash_similar] *)

Section phash.

Implicit Types data feature : list Z.

Lemma foldr_add_snoc (l : list Z) x :
  foldr Z.add 0 (l ++ [x]) = foldr Z.add 0 l + x.
Proof. induction l as [|y l IH]; simpl; lia. Qed.

(** A list whose members are all above [c] sums to at least [c + 1] times
    its length. *)
Lemma foldr_add_above (l : list Z) c :
  Forall (λ x, c < x) l →
  (c + 1) * Z.of_nat (length l) ≤ foldr Z.add 0 l.
Proof. induction 1 as [|x l Hx Hl IH]; simpl in *; lia. Qed.

(** The first loop returns the sum of the first [n] bytes. *)
Lemma phash_sum_loop data n :
  (n ≤ length data)%nat →
  for_range (och.phash_sum_body data) 0 n 0
  = Some (foldr Z.add 0 (take n data)).
Proof.
  intros Hn.
  destruct (for_range_invariant (och.phash_sum_body data)
              (λ j s, s = foldr Z.add 0 (take j data)) n 0 0)
    as (s & Hs & ->); [done| |done].
  intros j t Hj ->.
  destruct (lookup_lt_is_Some_2 data j) as [x Hx]; [lia|].
  exists (foldr Z.add 0 (take j data) + x). split.
  - unfold och.phash_sum_body. by rewrite Hx.
  - by rewrite (take_S_r _ _ x), foldr_add_snoc.
Qed.

(** The second loop, over [n] bytes and a [feature] of zeros, sets to 1 the
    features of the bytes above [mean] and no other. *)
Lemma phash_feature_loop data mean n :
  (n ≤ length data)%nat →
  ∃ feature,
    for_range (och.phash_feature_body data mean) 0 n (replicate n 0)
    = Some feature ∧
    length feature = n ∧
    ∀ j x, data !! j = Some x → (j < n)%nat →
           feature !! j = Some (if decide (x > mean) then 1 else 0).
Proof.
  intros Hn.
  destruct (for_range_invariant (och.phash_feature_body data mean)
              (λ j feature,
                 length feature = n ∧
                 (∀ c x, data !! c = Some x → (c < j)%nat →
                    feature !! c = Some (if decide (x > mean) then 1 else 0)) ∧
                 (∀ c, (j ≤ c < n)%nat → feature !! c = Some 0))
              n 0 (replicate n 0))
    as (f & Hf & Hlen & Hset & _).
  - split_and!; [by rewrite length_replicate|lia|].
    intros c Hc. apply lookup_replicate_2. lia.
  - intros j t Hj (Hlen & Hset & Hzero).
    destruct (lookup_lt_is_Some_2 data j) as [x Hx]; [lia|].
    unfold och.phash_feature_body. rewrite Hx. simpl.
    destruct (decide (x > mean)) as [Hgt|Hle].
    + rewrite decide_True by lia. eexists. split; [done|].
      split_and!.
      * by rewrite length_insert.
      * intros c y Hy Hc. destruct (decide (c = j)) as [->|Hne].
        -- rewrite list_lookup_insert_eq by lia.
           assert (y = x) as -> by congruence. by rewrite decide_True.
        -- rewrite list_lookup_insert_ne by done. apply Hset; [done|lia].
      * intros c Hc. rewrite list_lookup_insert_ne by lia. apply Hzero. lia.
    + exists t. split; [done|]. split_and!; [done| |].
      * intros c y Hy Hc. destruct (decide (c = j)) as [->|Hne].
        -- assert (y = x) as -> by congruence. rewrite decide_False by done.
           apply Hzero. lia.
        -- apply Hset; [done|lia].
      * intros c Hc. apply Hzero. lia.
  - exists f. split_and!; [done|done|]. intros j x Hx Hj. by apply Hset.
Qed.

(** On at least 64 bytes [compute_phash] returns 64 features. *)
Lemma compute_phash_length (data : list Z) :
  (64 ≤ length data)%nat →
  ∃ feature, och.compute_phash data = Some feature ∧ length feature = 64%nat.
Proof.
  intros Hlen. unfold och.compute_phash.
  rewrite phash_sum_loop by done. simpl.
  destruct (phash_feature_loop data (foldr Z.add 0 (take 64 data) / 64)
              64 Hlen) as (f & Hf & Hl & _).
  change (replicate 64 0) with (replicate 64%nat 0) in Hf.
  by exists f.
Qed.

End phash.

(** [compute_phash] on the 64 bytes of the grey image: it returns 64
    features, each 0 or 1; a feature is 1 exactly when 64 times its byte
    exceeds the sum of the bytes, that is, when the byte is above the exact
    mean; and at least one feature is 0. *)
Theorem compute_phash_features (data : list Z) :
  (64 ≤ length data)%nat → Forall (λ x, 0 ≤ x ≤ 255) data →
  ∃ feature,
    och.compute_phash data = Some feature ∧
    length feature = 64%nat ∧
    (∀ j x, data !! j = Some x → (j < 64)%nat →
       feature !! j
       = Some (if decide (64 * x > foldr Z.add 0 (take 64 data))
               then 1 else 0)) ∧
    ∃ j, (j < 64)%nat ∧ feature !! j = Some 0.
Proof.
  intros Hlen Hbytes. unfold och.compute_phash.
  rewrite phash_sum_loop by done. simpl.
  set (sum := foldr Z.add 0 (take 64 data)).
  destruct (phash_feature_loop data (sum / 64) 64 Hlen)
    as (f & Hf & Hl & Hset).
  change (replicate 64 0) with (replicate 64%nat 0) in Hf.
  exists f. split; [exact Hf|]. split; [done|].
  assert (∀ j x, data !! j = Some x → (j < 64)%nat →
            f !! j = Some (if decide (64 * x > sum) then 1 else 0)) as Hset'.
  { intros j x Hx Hj. rewrite (Hset j x Hx Hj). f_equal.
    repeat case_decide; try done; exfalso;
      Z.div_mod_to_equations; lia. }
  split; [done|].
  destruct (decide (Forall (λ x, sum / 64 < x) (take 64 data)))
    as [Hall|Hsome].
  - exfalso. apply foldr_add_above in Hall.
    rewrite length_take in Hall. fold sum in Hall.
    replace (64 `min` length data)%nat with 64%nat in Hall by lia.
    change (Z.of_nat 64) with 64 in Hall.
    Z.div_mod_to_equations. lia.
  - apply not_Forall_Exists in Hsome; [|apply _].
    apply Exists_exists in Hsome as (x & Hx & Hle).
    apply list_elem_of_lookup in Hx as [j Hj].
    apply lookup_take_Some in Hj as [Hj Hlt].
    exists j. split; [done|]. rewrite (Hset j x Hj Hlt). simpl in Hle.
    by rewrite decide_False by lia.
Qed.

Lemma compute_phash_features_witness :
  ∃ feature,
    och.compute_phash (replicate 32 200 ++ replicate 32 10) = Some feature ∧
    length feature = 64%nat ∧
    (∀ j x, (replicate 32 200 ++ replicate 32 10) !! j = Some x →
       (j < 64)%nat →
       feature !! j
       = Some (if decide (64 * x > foldr Z.add 0
                            (take 64 (replicate 32 200 ++ replicate 32 10)))
               then 1 else 0)) ∧
    ∃ j, (j < 64)%nat ∧ feature !! j = Some 0.
Proof.
  apply (compute_phash_features (replicate 32 200 ++ replicate 32 10));
    compute_done.
Defined.

(** [is_hash_similar] on two images of depth [CV_8U]: it returns, with the
    same answer whichever image comes first; the answer is [false] for
    every negative threshold and [true] for every threshold from 64 on;
    and an image is similar to itself exactly when the threshold is not
    negative. *)
Theorem is_hash_similar_threshold (data1 data2 : list Z) thresh :
  (64 ≤ length data1)%nat → Forall (λ x, 0 ≤ x ≤ 255) data1 →
  (64 ≤ length data2)%nat → Forall (λ x, 0 ≤ x ≤ 255) data2 →
  ∃ res,
    och.is_hash_similar och.CV_8U data1 och.CV_8U data2 thresh
    = Some (och.Returns res) ∧
    och.is_hash_similar och.CV_8U data2 och.CV_8U data1 thresh
    = Some (och.Returns res) ∧
    (thresh < 0 → res = false) ∧
    (64 ≤ thresh → res = true) ∧
    och.is_hash_similar och.CV_8U data1 och.CV_8U data1 thresh
    = Some (och.Returns (bool_decide (0 ≤ thresh))).
Proof.
  intros Hl1 Hb1 Hl2 Hb2.
  destruct (compute_phash_length data1 Hl1) as (f1 & Hf1 & Hlen1).
  destruct (compute_phash_length data2 Hl2) as (f2 & Hf2 & Hlen2).
  destruct (hamming_loop_Some f1 f2 64 0 0) as [d Hd]; [lia..|].
  destruct (hamming_loop_Some f1 f1 64 0 0) as [d0 Hd0]; [lia..|].
  pose proof (hamming_loop_count _ _ _ _ _ _ Hd) as [Hrange _].
  pose proof (hamming_loop_count _ _ _ _ _ _ Hd0) as [_ Hzero].
  assert (d0 = 0) as -> by (by apply Hzero).
  assert (∀ da db fa fb r,
    och.compute_phash da = Some fa → och.compute_phash db = Some fb →
    for_range (och.hamming_body fa fb) 0 64 0 = Some r →
    och.is_hash_similar och.CV_8U da och.CV_8U db thresh
    = Some (och.Returns (bool_decide (r ≤ thresh)))) as Hrun.
  { intros da db fa fb r Ha Hb Hr. unfold och.is_hash_similar.
    rewrite decide_False by (intros [?|?]; done).
    rewrite Ha. cbn [mbind option_bind]. rewrite Hb. cbn [mbind option_bind].
    unfold och.compute_hamming_dist. change (Z.to_nat 64) with 64%nat.
    by rewrite Hr. }
  exists (bool_decide (d ≤ thresh)). split_and!.
  - by apply (Hrun data1 data2 f1 f2).
  - apply (Hrun data2 data1 f2 f1); [done..|]. by rewrite hamming_loop_sym.
  - intros Ht. apply bool_decide_eq_false. lia.
  - intros Ht. apply bool_decide_eq_true. simpl in Hrange. lia.
  - by apply (Hrun data1 data1 f1 f1).
Qed.

Lemma is_hash_similar_threshold_witness :
  ∃ res,
    och.is_hash_similar och.CV_8U (replicate 32 200 ++ replicate 32 10)
      och.CV_8U (replicate 64 77) 3 = Some (och.Returns res) ∧
    och.is_hash_similar och.CV_8U (replicate 64 77)
      och.CV_8U (replicate 32 200 ++ replicate 32 10) 3
    = Some (och.Returns res) ∧
    (3 < 0 → res = false) ∧
    (64 ≤ 3 → res = true) ∧
    och.is_hash_similar och.CV_8U (replicate 32 200 ++ replicate 32 10)
      och.CV_8U (replicate 32 200 ++ replicate 32 10) 3
    = Some (och.Returns (bool_decide (0 ≤ 3))).
Proof.
  apply (is_hash_similar_threshold
           (replicate 32 200 ++ replicate 32 10) (replicate 64 77) 3);
    compute_done.
Defined.

(** ** [assertAlmostEqual] *)

Section assert_row.

Implicit Types expected actual : list Z.

(** The product of a column count and a channel count that fits [int]. *)
Lemma int_mul_exact cols cn :
  0 ≤ cols * cn < 2 ^ 31 → och.int_mul cols cn = cols * cn.
Proof.
  intros H. unfold och.int_mul, wrap.
  change (2 ^ (32 - 1)) with 2147483648. change (2 ^ 32) with 4294967296.
  change (2 ^ 31) with 2147483648 in H.
  rewrite Z.mod_small by lia. lia.
Qed.

(** The loop over [k] elements that both rows have: it returns, and it
    returns [true] exactly when no two elements of equal index differ by
    more than [eps]. *)
Lemma assert_row_loop_spec expected actual eps k : ∀ i,
  (i + k ≤ length expected)%nat → (i + k ≤ length actual)%nat →
  ∃ res, och.assert_row_loop expected actual eps i k = Some res ∧
    (res = true ↔
     ∀ j x y, (i ≤ j < i + k)%nat →
       expected !! j = Some x → actual !! j = Some y →
       (inject_Z (Z.abs (x - y)) <= eps)%Q).
Proof.
  induction k as [|k IH]; intros i He Ha; simpl.
  - exists true. split; [done|]. split; [|done]. intros _ j x y Hj. lia.
  - destruct (lookup_lt_is_Some_2 expected i) as [x Hx]; [lia|].
    destruct (lookup_lt_is_Some_2 actual i) as [y Hy]; [lia|].
    rewrite Hx, Hy. simpl.
    destruct (Qle_bool (inject_Z (Z.abs (x - y))) eps) eqn:Hq; simpl.
    + apply Qle_bool_iff in Hq.
      destruct (IH (S i)) as (res & Hres & Hiff); [lia..|].
      exists res. split; [done|]. rewrite Hiff. split.
      * intros Hall j x' y' Hj Hx' Hy'.
        destruct (decide (j = i)) as [->|Hne].
        -- assert (x' = x) as -> by congruence.
           assert (y' = y) as -> by congruence. done.
        -- apply (Hall j); [lia|done..].
      * intros Hall j x' y' Hj. apply Hall. lia.
    + exists false. split; [done|]. split; [done|]. intros Hall.
      assert (Qle_bool (inject_Z (Z.abs (x - y))) eps = true) as Hq'.
      { apply Qle_bool_iff. apply (Hall i); [lia|done..]. }
      congruence.
Qed.

Lemma assert_row_loop_sym expected actual eps k : ∀ i,
  och.assert_row_loop expected actual eps i k
  = och.assert_row_loop actual expected eps i k.
Proof.
  induction k as [|k IH]; intros i; simpl; [done|].
  destruct (expected !! i) as [x|], (actual !! i) as [y|]; simpl; try done.
  replace (Z.abs (y - x)) with (Z.abs (x - y)) by lia.
  by rewrite IH.
Qed.

End assert_row.





(** With a negative [eps], [assertAlmostEqual] returns [false] on every
    pair of rows of at least one element, a row and itself too. *)
Theorem assertAlmostEqual_negative_eps (expected actual : list Z)
    y cols cn eps :
  0 < cols * cn < 2 ^ 31 →
  cols * cn ≤ Z.of_nat (length expected) →
  cols * cn ≤ Z.of_nat (length actual) →
  (eps < 0)%Q →
  och.assertAlmostEqual expected actual y cols cn eps = Some false.
Proof.
  intros Hlen He Ha Heps. unfold och.assertAlmostEqual.
  rewrite int_mul_exact by lia.
  destruct (assert_row_loop_spec expected actual eps
              (Z.to_nat (cols * cn)) 0) as (res & Hres & Hiff); [lia..|].
  rewrite Hres. f_equal. destruct res; [|done]. exfalso.
  destruct Hiff as [Hall _]. specialize (Hall eq_refl).
  destruct (lookup_lt_is_Some_2 expected 0) as [x Hx]; [lia|].
  destruct (lookup_lt_is_Some_2 actual 0) as [x' Hx']; [lia|].
  specialize (Hall 0%nat x x' ltac:(lia) Hx Hx').
  unfold Qle, Qlt in *. simpl in *.
  pose proof (Pos2Z.is_pos (Qden eps)). nia.
Qed.

Lemma assertAlmostEqual_negative_eps_witness :
  och.assertAlmostEqual [5; 6; 7] [5; 6; 7] 0 3 1 (-1 # 1000) = Some false.
Proof.
  apply (assertAlmostEqual_negative_eps [5; 6; 7] [5; 6; 7] 0 3 1 (-1 # 1000));
    compute_done.
Defined.

(** [assertAlmostEqual] gives the same answer when the two rows are
    exchanged, and does not depend on the row number [y]. *)
Theorem assertAlmostEqual_sym (expected actual : list Z) y y' cols cn eps :
  och.assertAlmostEqual expected actual y cols cn eps
  = och.assertAlmostEqual actual expected y' cols cn eps.
Proof. apply assert_row_loop_sym. Qed.

(** ** [auto_compare] *)

Section auto_compare.

Context (expected actual : och.Mat).

Lemma mat_wf_ptr (m : och.Mat) i j k :
  och.mat_wf m →
  (i < Z.to_nat (och.rows m))%nat → (j < Z.to_nat (och.cols m))%nat →
  (k < Z.to_nat (och.channels m))%nat →
  is_Some (och.mat_ptr m i j k).
Proof.
  intros [Hrows Hall] Hi Hj Hk. unfold och.mat_ptr.
  destruct (lookup_lt_is_Some_2 (och.elems m) i) as [row Hrow]; [lia|].
  rewrite Hrow. simpl.
  pose proof (Forall_lookup_1 _ _ _ _ Hall Hrow) as [Hcols Hpx].
  destruct (lookup_lt_is_Some_2 row j) as [px Hp]; [lia|].
  rewrite Hp. simpl.
  pose proof (Forall_lookup_1 _ _ _ _ Hpx Hp) as Hch. simpl in Hch.
  apply lookup_lt_is_Some_2. lia.
Qed.

(** One run of the body replaces [max_diff[k]] by the larger of it and
    the flag of the two elements being different. *)
Lemma auto_compare_body_Some i j k max_diff x y m :
  och.mat_ptr expected i j k = Some x → och.mat_ptr actual i j k = Some y →
  max_diff !! k = Some m →
  och.auto_compare_body expected actual i j k max_diff
  = Some (<[k:=Z.max (if decide (x ≠ y) then 1 else 0) m]> max_diff).
Proof.
  intros Hx Hy Hm. unfold och.auto_compare_body.
  rewrite Hx, Hy. simpl. rewrite Hm. simpl.
  pose proof (lookup_lt_Some _ _ _ Hm) as Hk.
  set (d := if decide (x ≠ y) then 1 else 0).
  assert (Z.abs d = d) as -> by (unfold d; case_decide; lia).
  case_decide as Hlt.
  - rewrite list_lookup_insert_eq by done. simpl.
    rewrite list_insert_insert_eq. do 2 f_equal. lia.
  - by rewrite Hm.
Qed.

Local Abbreviation seen := (och.flags_seen expected actual).

Lemma seen_ext (P Q : nat → nat → nat → Prop) (max_diff : list Z) :
  (∀ i j c, P i j c ↔ Q i j c) → seen P max_diff → seen Q max_diff.
Proof.
  intros HPQ [Hlen Hall]. split; [done|]. intros c Hc.
  destruct (Hall c Hc) as (v & Hv & H01 & Hiff).
  exists v. split_and!; [done..|]. rewrite Hiff.
  split; intros (i & j & HP & Hd); exists i, j; split; try done; by apply HPQ.
Qed.

Lemma seen_step (P : nat → nat → nat → Prop) (max_diff : list Z) i j k :
  och.mat_wf expected → och.mat_wf actual →
  och.channels actual = och.channels expected →
  och.rows actual = och.rows expected →
  och.cols actual = och.cols expected →
  (i < Z.to_nat (och.rows expected))%nat →
  (j < Z.to_nat (och.cols expected))%nat →
  (k < Z.to_nat (och.channels expected))%nat → (k < 4)%nat →
  seen P max_diff →
  ∃ max_diff',
    och.auto_compare_body expected actual i j k max_diff = Some max_diff' ∧
    seen (λ i' j' c, P i' j' c ∨ (i' = i ∧ j' = j ∧ c = k)) max_diff'.
Proof.
  intros We Wa Hch Hr Hc Hi Hj Hk Hk4 [Hlen Hall].
  destruct (mat_wf_ptr expected i j k) as [x Hx]; [done..|].
  destruct (mat_wf_ptr actual i j k) as [y Hy]; [done|lia..|].
  destruct (Hall k Hk4) as (m & Hm & H01 & Hiff).
  rewrite (auto_compare_body_Some i j k max_diff x y m) by done.
  eexists. split; [done|]. split; [by rewrite length_insert|].
  intros c Hc4. destruct (decide (c = k)) as [->|Hne].
  - rewrite list_lookup_insert_eq by lia. eexists. split; [done|].
    split; [case_decide; lia|]. split.
    + intros Hmax. destruct (decide (x ≠ y)) as [Hxy|Hxy].
      * exists i, j. split; [by right|]. by exists x, y.
      * assert (m = 1) as Hm1 by lia. apply Hiff in Hm1 as (i' & j' & HP & Hd).
        exists i', j'. split; [by left|done].
    + intros (i' & j' & [HP|(-> & -> & _)] & Hd).
      * assert (m = 1) as -> by (apply Hiff; eauto). case_decide; lia.
      * destruct Hd as (x' & y' & Hx' & Hy' & Hxy).
        assert (x' = x) as -> by congruence.
        assert (y' = y) as -> by congruence.
        rewrite decide_True by done. lia.
  - rewrite list_lookup_insert_ne by done.
    destruct (Hall c Hc4) as (v & Hv & Hv01 & Hviff).
    exists v. split_and!; [done..|]. rewrite Hviff.
    split; intros (i' & j' & HP & Hd); exists i', j'; split; try done.
    + by left.
    + destruct HP as [HP|(_ & _ & ->)]; done.
Qed.


Context (We : och.mat_wf expected) (Wa : och.mat_wf actual).
Context (Hch : och.channels actual = och.channels expected).
Context (Hrows : och.rows actual = och.rows expected).
Context (Hcols : och.cols actual = och.cols expected).
Context (Hch4 : och.channels expected ≤ 4).

Local Abbreviation height := (Z.to_nat (och.rows expected)).
Local Abbreviation width := (Z.to_nat (och.cols expected)).
Local Abbreviation chans := (Z.to_nat (och.channels expected)).

(** The loop over the channels of one pixel. *)
Lemma auto_compare_pixel (P : nat → nat → nat → Prop) max_diff i j :
  (i < height)%nat → (j < width)%nat → seen P max_diff →
  ∃ max_diff',
    for_range (och.auto_compare_body expected actual i j) 0 chans max_diff
    = Some max_diff' ∧
    seen (λ i' j' c, P i' j' c ∨ (i' = i ∧ j' = j ∧ (c < chans)%nat))
         max_diff'.
Proof.
  intros Hi Hj Hseen.
  apply (for_range_invariant (och.auto_compare_body expected actual i j)
           (λ k md, seen (λ i' j' c,
              P i' j' c ∨ (i' = i ∧ j' = j ∧ (c < k)%nat)) md) chans 0).
  - eapply seen_ext; [|done]. intros i' j' c. split; [by left|].
    intros [?|(_ & _ & ?)]; [done|lia].
  - intros k md Hk Hmd.
    destruct (seen_step _ md i j k We Wa Hch Hrows Hcols
                ltac:(lia) ltac:(lia) ltac:(lia) ltac:(lia) Hmd)
      as (md' & Hb & Hs).
    exists md'. split; [done|]. eapply seen_ext; [|done].
    intros i' j' c. simpl. split.
    + intros [[?|(? & ? & ?)]|(? & ? & ?)]; [by left|right..]; split_and!; (done || lia).
    + intros [?|(? & ? & ?)]; [by left; left|].
      destruct (decide (c = k)); [by right|left; right]. split_and!; (done || lia).
Qed.

(** The loop over the pixels of one row. *)
Lemma auto_compare_row (P : nat → nat → nat → Prop) max_diff i :
  (i < height)%nat → seen P max_diff →
  ∃ max_diff',
    for_range (λ j,
      for_range (och.auto_compare_body expected actual i j) 0 chans)
      0 width max_diff = Some max_diff' ∧
    seen (λ i' j' c,
      P i' j' c ∨ (i' = i ∧ (j' < width)%nat ∧ (c < chans)%nat)) max_diff'.
Proof.
  intros Hi Hseen.
  apply (for_range_invariant
           (λ j, for_range (och.auto_compare_body expected actual i j) 0 chans)
           (λ j md, seen (λ i' j' c,
              P i' j' c ∨ (i' = i ∧ (j' < j)%nat ∧ (c < chans)%nat)) md)
           width 0).
  - eapply seen_ext; [|done]. intros i' j' c. split; [by left|].
    intros [?|(_ & ? & _)]; [done|lia].
  - intros j md Hj Hmd.
    destruct (auto_compare_pixel _ md i j ltac:(lia) ltac:(lia) Hmd)
      as (md' & Hb & Hs).
    exists md'. split; [done|]. eapply seen_ext; [|done].
    intros i' j' c. simpl. split.
    + intros [[?|(? & ? & ?)]|(? & ? & ?)]; [by left|right..]; split_and!; (done || lia).
    + intros [?|(? & ? & ?)]; [by left; left|].
      destruct (decide (j' = j)); [by right|left; right]. split_and!; (done || lia).
Qed.

(** The three loops. *)
Lemma auto_compare_loops :
  ∃ max_diff,
    for_range (λ i,
      for_range (λ j,
        for_range (och.auto_compare_body expected actual i j) 0 chans)
        0 width)
      0 height [0; 0; 0; 0] = Some max_diff ∧
    seen (λ i j c, (i < height)%nat ∧ (j < width)%nat ∧ (c < chans)%nat)
         max_diff.
Proof.
  apply (for_range_invariant
           (λ i, for_range (λ j,
              for_range (och.auto_compare_body expected actual i j) 0 chans)
              0 width)
           (λ i md, seen (λ i' j' c,
              (i' < i)%nat ∧ (j' < width)%nat ∧ (c < chans)%nat) md)
           height 0).
  - split; [done|]. intros c Hc. exists 0.
    split; [|split; [by left|]].
    + by do 4 (destruct c as [|c]; [done|]); lia.
    + split; [done|]. intros (i & j & (? & _) & _). lia.
  - intros i md Hi Hmd.
    destruct (auto_compare_row _ md i ltac:(lia) Hmd) as (md' & Hb & Hs).
    exists md'. split; [done|]. eapply seen_ext; [|done].
    intros i' j' c. simpl. split.
    + intros [(? & ? & ?)|(? & ? & ?)]; split_and!; (done || lia).
    + intros (? & ? & ?).
      destruct (decide (i' = i)); [by right|left]. split_and!; (done || lia).
Qed.

Lemma auto_compare_print_loop (max_diff : list Z) :
  length max_diff = 4%nat →
  for_range och.auto_compare_print 0 chans max_diff = Some max_diff.
Proof.
  intros Hlen.
  destruct (for_range_invariant och.auto_compare_print
              (λ _ md, md = max_diff) chans 0 max_diff)
    as (md & Hmd & ->); [done| |done].
  intros k md Hk ->. exists max_diff. split; [|done].
  unfold och.auto_compare_print.
  destruct (lookup_lt_is_Some_2 max_diff k) as [v ->]; [lia|]. done.
Qed.

Lemma auto_compare_spec :
  ∃ max_diff,
    och.auto_compare expected actual = Some max_diff ∧
    seen (λ i j c, (i < height)%nat ∧ (j < width)%nat ∧ (c < chans)%nat)
         max_diff.
Proof.
  destruct auto_compare_loops as (md & Hmd & Hs).
  exists md. split; [|done]. unfold och.auto_compare.
  rewrite decide_False by (intros [?|?]; congruence).
  cbn zeta. rewrite Hmd. cbn [mbind option_bind].
  apply auto_compare_print_loop. by destruct Hs.
Qed.

End auto_compare.

(** [auto_compare] on two matrices of the same rows, columns and at most
    four channels: every component it returns is 0 or 1, and component [c]
    is 1 exactly when the matrices differ in channel [c] of some pixel.
    It is a flag, not the size of the largest difference. *)
Theorem auto_compare_flags (expected actual : och.Mat) :
  och.mat_wf expected → och.mat_wf actual →
  och.channels actual = och.channels expected →
  och.rows actual = och.rows expected →
  och.cols actual = och.cols expected →
  och.channels expected ≤ 4 →
  ∃ max_diff,
    och.auto_compare expected actual = Some max_diff ∧
    length max_diff = 4%nat ∧
    ∀ c, (c < 4)%nat →
      ∃ v, max_diff !! c = Some v ∧ (v = 0 ∨ v = 1) ∧
        (v = 1 ↔
         ∃ i j, ((i < Z.to_nat (och.rows expected))%nat ∧
                 (j < Z.to_nat (och.cols expected))%nat ∧
                 (c < Z.to_nat (och.channels expected))%nat) ∧
                och.mat_differ expected actual i j c).
Proof.
  intros We Wa Hch Hrows Hcols Hch4.
  destruct (auto_compare_spec expected actual We Wa Hch Hrows Hcols Hch4)
    as (md & Hmd & Hlen & Hall).
  by exists md.
Qed.

Lemma auto_compare_flags_witness :
  ∃ max_diff,
    och.auto_compare
      (och.Build_Mat 1 2 3 [[[10; 20; 30]; [40; 50; 60]]])
      (och.Build_Mat 1 2 3 [[[10; 20; 30]; [40; 250; 60]]]) = Some max_diff ∧
    length max_diff = 4%nat ∧
    ∀ c, (c < 4)%nat →
      ∃ v, max_diff !! c = Some v ∧ (v = 0 ∨ v = 1) ∧
        (v = 1 ↔
         ∃ i j, ((i < Z.to_nat 1)%nat ∧ (j < Z.to_nat 2)%nat ∧
                 (c < Z.to_nat 3)%nat) ∧
                och.mat_differ
                  (och.Build_Mat 1 2 3 [[[10; 20; 30]; [40; 50; 60]]])
                  (och.Build_Mat 1 2 3 [[[10; 20; 30]; [40; 250; 60]]])
                  i j c).
Proof.
  apply (auto_compare_flags
           (och.Build_Mat 1 2 3 [[[10; 20; 30]; [40; 50; 60]]])
           (och.Build_Mat 1 2 3 [[[10; 20; 30]; [40; 250; 60]]]));
    compute_done.
Defined.

(** ** [get_regular_polygon_vertices] *)


